(** * Qt OPC UA: the QML method node and the history data value class

  A shallow embedding of
  - [src/opcua/client/qopcuahistorydata.cpp] (class [QOpcUaHistoryData],
    an implicitly shared value class), and
  - [src/imports/opcua/opcuamethodnode.cpp] (class [OpcUaMethodNode], the
    QML element that calls a method node on a server),
  together with the properties their specification states about them. *)

From stdpp Require Import gmap strings list.

Local Open Scope Z_scope.

Set Warnings "-register-all,-clear-no-such-hyp".

(** ** Types of the [QOpcUa] namespace and of Qt that both classes use *)

Module QOpcUa.

(** [QOpcUa::UaStatusCode] is an enumeration over the 32 bit OPC UA status
    codes; it is kept as its underlying value.  [Good] is the one code the
    sources name. *)
Definition UaStatusCode : Type := Z.

Definition Good : UaStatusCode := 0.
Definition BadTimeout : UaStatusCode := 0x800A0000.
Definition BadNodeIdUnknown : UaStatusCode := 0x80340000.
Definition BadMethodInvalid : UaStatusCode := 0x80750000.

(** [QOpcUa::NodeClass] ([Variable_] is [NodeClass::Variable]). *)
Inductive NodeClass : Type :=
| Undefined
| Object
| Variable_
| Method
| ObjectType
| VariableType
| ReferenceType
| DataType
| View.

#[global] Instance NodeClass_eq_dec : EqDecision NodeClass.
Proof. solve_decision. Defined.

(** [QOpcUa::Types], the wire type tag of a method argument. *)
Inductive Types : Type :=
| Boolean
| Int32
| UInt32
| Double
| Float
| String
| UndefinedType.

End QOpcUa.

(** [QVariant]: the cases the two classes can tell apart.  A variant holds
  nothing ([Invalid]), a scalar, a node class, a [QStringList] or a
  [QVariantList]. *)
Inductive QVariant : Type :=
| Invalid
| VBool (b : bool)
| VInt (z : Z)
| VString (s : string)
| VNodeClass (c : QOpcUa.NodeClass)
| VStringList (l : list string)
| VList (l : list QVariant).

(** [QVariant::canConvert<QVariantList>()]: lists of variants and of strings
  convert, nothing else does. *)
Definition canConvert_QVariantList (v : QVariant) : bool :=
match v with
| VList _ | VStringList _ => true
| _ => false
end.

(** [QVariant::value<QVariantList>()]; the empty list where nothing converts. *)
Definition value_QVariantList (v : QVariant) : list QVariant :=
match v with
| VList l => l
| VStringList l => VString <$> l
| _ => []
end.

(** [QVariant::value<QOpcUa::NodeClass>()]: the stored class, and the default
  constructed one ([Undefined]) for a variant that holds none. *)
Definition value_NodeClass (v : QVariant) : QOpcUa.NodeClass :=
match v with
| VNodeClass c => c
| _ => QOpcUa.Undefined
end.

(** ** [QOpcUaHistoryData] *)

Module HistoryData.

(** [QOpcUaDataValue]: one sample, a value with its time stamp and its own
    status code.  The container never looks inside a sample. *)
Record QOpcUaDataValue : Type := DataValue {
  dv_value : QVariant;
  dv_sourceTimestamp : Z;
  dv_statusCode : QOpcUa.UaStatusCode
}.

(** [class QOpcUaHistoryDataData : public QSharedData]: the shared block,
    with the reference count [QSharedData::ref] it inherits. *)
Record QOpcUaHistoryDataData : Type := Data {
  ref : nat;
  result : list QOpcUaDataValue;
  statusCode : QOpcUa.UaStatusCode;
  nodeId : string
}.

Definition set_ref (n : nat) (d : QOpcUaHistoryDataData) :=
  {| ref := n; result := result d; statusCode := statusCode d; nodeId := nodeId d |}.
Definition set_result (r : list QOpcUaDataValue) (d : QOpcUaHistoryDataData) :=
  {| ref := ref d; result := r; statusCode := statusCode d; nodeId := nodeId d |}.
Definition set_statusCode (c : QOpcUa.UaStatusCode) (d : QOpcUaHistoryDataData) :=
  {| ref := ref d; result := result d; statusCode := c; nodeId := nodeId d |}.
Definition set_nodeId (s : string) (d : QOpcUaHistoryDataData) :=
  {| ref := ref d; result := result d; statusCode := statusCode d; nodeId := s |}.

(** The store.  [objects] has every live [QOpcUaHistoryData] object, named
    by its identity (what [this != &rhs] compares), with the block its
    member [data] points to; [heap] has the blocks. *)
Record Memory : Type := Mem {
  objects : gmap nat nat;
  heap : gmap nat QOpcUaHistoryDataData
}.

(** Member functions run in the store and fail ([None]) on an object that
    is not alive or a pointer that dangles. *)
Definition M (A : Type) : Type := Memory → option (A * Memory).

#[global] Instance M_ret : MRet M := λ A a m, Some (a, m).
#[global] Instance M_bind : MBind M := λ A B k c m,
  match c m with
  | Some (a, m') => k a m'
  | None => None
  end.

Definition d_ptr (this : nat) : M nat :=
  λ m, p ← objects m !! this; Some (p, m).
Definition load (p : nat) : M QOpcUaHistoryDataData :=
  λ m, d ← heap m !! p; Some (d, m).
Definition store (p : nat) (d : QOpcUaHistoryDataData) : M unit :=
  λ m, Some (tt, Mem (objects m) (<[p := d]> (heap m))).
Definition free (p : nat) : M unit :=
  λ m, Some (tt, Mem (objects m) (delete p (heap m))).
Definition set_d_ptr (this p : nat) : M unit :=
  λ m, Some (tt, Mem (<[this := p]> (objects m)) (heap m)).
Definition forget (this : nat) : M unit :=
  λ m, Some (tt, Mem (delete this (objects m)) (heap m)).

(** *** [QSharedDataPointer<QOpcUaHistoryDataData>] *)

(** [new T] handed to the constructor of [QSharedDataPointer]: a block at a fresh
    address, whose count the pointer raises from 0 to 1. *)
Definition sdp_new (d : QOpcUaHistoryDataData) : M nat :=
  λ m, let p := fresh (dom (heap m)) in
       Some (p, Mem (objects m) (<[p := set_ref 1 d]> (heap m))).

(** [d->ref.ref()]. *)
Definition ref_up (p : nat) : M unit :=
  d ← load p; store p (set_ref (S (ref d)) d).

(** [if (!d->ref.deref()) delete d]. *)
Definition ref_down (p : nat) : M unit :=
  d ← load p;
  if decide (Nat.pred (ref d) = 0%nat) then free p
  else store p (set_ref (Nat.pred (ref d)) d).

(** Modelled from the spec: the member [data] is declared in the class
    definition, in the header; copies of a record "share underlying storage
    until a mutation occurs, then the mutated copy gets a private copy of
    storage", which with the base class [QSharedData] of the block is Qt's
    [QSharedDataPointer<QOpcUaHistoryDataData>].  Its [detach()] is
    [if (d && d->ref.load() != 1) detach_helper()], where [detach_helper] is
    [T *x = clone(); x->ref.ref(); if (!d->ref.deref()) delete d; d = x]. *)
Definition detach (this : nat) : M unit :=
  p ← d_ptr this;
  d ← load p;
  if decide (ref d = 1%nat) then mret tt
  else
    x ← sdp_new d;
    ref_down p;;
    set_d_ptr this x.

(** [data->field = ...] and [data->field.f(...)] in a non-const member:
    [operator->()] detaches first. *)
Definition mutate (this : nat) (f : QOpcUaHistoryDataData → QOpcUaHistoryDataData) : M unit :=
  detach this;;
  p ← d_ptr this;
  d ← load p;
  store p (f d).

(** [data->field] in a const member: no detach. *)
Definition read {A} (this : nat) (g : QOpcUaHistoryDataData → A) : M A :=
  p ← d_ptr this;
  d ← load p;
  mret (g d).

(** *** The member functions of [QOpcUaHistoryData] *)

(** The block [new QOpcUaHistoryDataData] makes (its status code is
    assigned by the constructor body right after). *)
Definition new_data : QOpcUaHistoryDataData :=
  {| ref := 0; result := []; statusCode := QOpcUa.Good; nodeId := "" |}.

(** [QOpcUaHistoryData::QOpcUaHistoryData()]. *)
Definition ctor (this : nat) : M unit :=
  p ← sdp_new new_data;
  set_d_ptr this p;;
  mutate this (set_statusCode QOpcUa.Good).

(** [QOpcUaHistoryData::QOpcUaHistoryData(const QString &nodeId)]. *)
Definition ctor_nodeId (this : nat) (id : string) : M unit :=
  p ← sdp_new new_data;
  set_d_ptr this p;;
  mutate this (set_statusCode QOpcUa.Good);;
  mutate this (set_nodeId id).

(** [QOpcUaHistoryData::QOpcUaHistoryData(const QOpcUaHistoryData &other)]:
    [data(other.data)] shares the block and counts the new reference. *)
Definition ctor_copy (this other : nat) : M unit :=
  p ← d_ptr other;
  ref_up p;;
  set_d_ptr this p.

(** [QOpcUaHistoryData::~QOpcUaHistoryData()]: the member [data] lets go of
    its block. *)
Definition dtor (this : nat) : M unit :=
  p ← d_ptr this;
  ref_down p;;
  forget this.

Definition get_statusCode (this : nat) : M QOpcUa.UaStatusCode :=
  read this statusCode.

Definition setStatusCode (this : nat) (c : QOpcUa.UaStatusCode) : M unit :=
  mutate this (set_statusCode c).

(** [QList<QOpcUaDataValue> QOpcUaHistoryData::result() const]. *)
Definition get_result (this : nat) : M (list QOpcUaDataValue) :=
  read this result.

(** [QList<QOpcUaDataValue> &QOpcUaHistoryData::resultRef()]: a non-const
    member, so [data->] detaches; the reference designates the list of the
    block at the address returned here. *)
Definition resultRef (this : nat) : M nat :=
  detach this;;
  d_ptr this.

(** [int QOpcUaHistoryData::count() const]: [QList::count()], itself an
    [int]. *)
Definition count (this : nat) : M Z :=
  read this (λ d, Z.of_nat (length (result d))).

(** [void QOpcUaHistoryData::addValue(const QOpcUaDataValue &value)]. *)
Definition addValue (this : nat) (value : QOpcUaDataValue) : M unit :=
  mutate this (λ d, set_result (result d ++ [value]) d).

Definition get_nodeId (this : nat) : M string :=
  read this nodeId.

Definition setNodeId (this : nat) (id : string) : M unit :=
  mutate this (set_nodeId id).

(** [QOpcUaHistoryData::operator=]: [if (this != &rhs) data.operator=(rhs.data)],
    and [QSharedDataPointer::operator=] is
    [if (o.d != d) { o.d->ref.ref(); old = d; d = o.d; if (!old->ref.deref()) delete old; }]. *)
Definition assign (this rhs : nat) : M unit :=
  if decide (this = rhs) then mret tt
  else
    o ← d_ptr rhs;
    d ← d_ptr this;
    if decide (o = d) then mret tt
    else
      ref_up o;;
      set_d_ptr this o;;
      ref_down d.

(** A run of [addValue] calls, one per sample, in the order of the list. *)
Fixpoint addValues (this : nat) (values : list QOpcUaDataValue) : M unit :=
  match values with
  | [] => mret tt
  | v :: vs => addValue this v;; addValues this vs
  end.

(** The two constructions of a new record: empty, or for a node id. *)
Definition construct (this : nat) (id : option string) : M unit :=
  match id with
  | None => ctor this
  | Some s => ctor_nodeId this s
  end.

(** The two ways to make [b] a copy of [a]: [QOpcUaHistoryData b(a)] for a
    new object [b], and [b = a] for one that is alive. *)
Inductive Copy : Type := CopyConstructed | Assigned.

Definition make_copy (k : Copy) (b a : nat) : M unit :=
  match k with
  | CopyConstructed => ctor_copy b a
  | Assigned => assign b a
  end.

Definition can_copy (k : Copy) (b : nat) (m : Memory) : Prop :=
  match k with
  | CopyConstructed => objects m !! b = None
  | Assigned => is_Some (objects m !! b)
  end.

(** What a caller can see of a record through its const members
    [result()], [statusCode()] and [nodeId()]. *)
Definition payload (d : QOpcUaHistoryDataData)
  : list QOpcUaDataValue * QOpcUa.UaStatusCode * string :=
  (result d, statusCode d, nodeId d).

Definition observe (this : nat) (m : Memory)
  : option (list QOpcUaDataValue * QOpcUa.UaStatusCode * string) :=
  fst <$> read this payload m.

Definition count_of (this : nat) (m : Memory) : option Z := fst <$> count this m.
Definition result_of (this : nat) (m : Memory) : option (list QOpcUaDataValue) :=
  fst <$> get_result this m.

(** The objects whose member [data] points to block [p]. *)
Definition holders (p : nat) (objs : gmap nat nat) : gset nat :=
  filter (λ o, objs !! o = Some p) (dom objs).

(** The invariant of implicit sharing. *)
Record wf (m : Memory) : Prop := {
  wf_alloc : ∀ o p, objects m !! o = Some p → is_Some (heap m !! p);
  wf_ref : ∀ p d, heap m !! p = Some d → ref d = size (holders p (objects m))
}.

(** The functions the mutating members apply to the block leave its
    reference count alone. *)
Definition keeps_ref (f : QOpcUaHistoryDataData → QOpcUaHistoryDataData) : Prop :=
  ∀ n d, f (set_ref n d) = set_ref n (f d).

(** [owns m this d]: the block of [this] is [d] and nothing shares it. *)
Definition owns (m : Memory) (this : nat) (d : QOpcUaHistoryDataData) : Prop :=
  ∃ p, objects m !! this = Some p ∧ heap m !! p = Some d ∧ ref d = 1%nat.

Definition empty_record (id : string) : QOpcUaHistoryDataData :=
  {| ref := 1; result := []; statusCode := QOpcUa.Good; nodeId := id |}.

(** A store with one record, as the default constructor leaves it. *)
Definition one_record : Memory :=
  Mem {[ 0%nat := 0%nat ]} {[ 0%nat := empty_record "" ]}.

(** The calls a program can make on its records, and when the language lets
    it make them: a constructor runs on an object that is not alive yet,
    every other member on one that is. *)
Inductive Call : Type :=
| CallConstruct (this : nat) (id : option string)
| CallCopy (this other : nat)
| CallAssign (this rhs : nat)
| CallDestroy (this : nat)
| CallAddValue (this : nat) (value : QOpcUaDataValue)
| CallSetStatusCode (this : nat) (c : QOpcUa.UaStatusCode)
| CallSetNodeId (this : nat) (id : string).

Definition call (c : Call) : M unit :=
  match c with
  | CallConstruct this id => construct this id
  | CallCopy this other => ctor_copy this other
  | CallAssign this rhs => assign this rhs
  | CallDestroy this => dtor this
  | CallAddValue this value => addValue this value
  | CallSetStatusCode this c => setStatusCode this c
  | CallSetNodeId this id => setNodeId this id
  end.

Definition legal (c : Call) (m : Memory) : Prop :=
  match c with
  | CallConstruct this _ => objects m !! this = None
  | CallCopy this other => objects m !! this = None ∧ is_Some (objects m !! other)
  | CallAssign this rhs => is_Some (objects m !! this) ∧ is_Some (objects m !! rhs)
  | CallDestroy this
  | CallAddValue this _
  | CallSetStatusCode this _
  | CallSetNodeId this _ => is_Some (objects m !! this)
  end.

(** The stores a program reaches from the empty one. *)
Inductive reachable : Memory → Prop :=
| reachable_empty : reachable (Mem ∅ ∅)
| reachable_call m m' c :
    reachable m → legal c m → call c m = Some (tt, m') → reachable m'.

(** *** Further definitions: references, leaks, example stores *)

(** Writing through the reference [resultRef()] returned: the list of the
    block it designates is changed in place. *)
Definition write_ref (p : nat) (f : list QOpcUaDataValue → list QOpcUaDataValue)
  : M unit :=
  d ← load p;
  store p (set_result (f (result d)) d).

(** Every block is held by an object. *)
Definition no_garbage (m : Memory) : Prop :=
  ∀ p, is_Some (heap m !! p) → ∃ o, objects m !! o = Some p.

Definition refs_pos (h : gmap nat QOpcUaHistoryDataData) : Prop :=
  ∀ p d, h !! p = Some d → (1 ≤ ref d)%nat.

Definition sample (k : Z) : QOpcUaDataValue := DataValue (VInt k) (1000 + k) QOpcUa.Good.

(** A store with two records that share nothing: one with a sample, one
    made for a node id. *)
Definition two_records : Memory :=
  Mem {[ 0%nat := 0%nat; 1%nat := 1%nat ]}
      {[ 0%nat := Data 1 [sample 1] QOpcUa.Good "";
         1%nat := Data 1 [] QOpcUa.Good "ns=2;s=Temperature" ]}.

End HistoryData.

(** ** [OpcUaMethodNode] *)

Module MethodNode.

(** [OpcUaNode::Status]: the values the method node sets.  The enumeration
    is declared with the base class [OpcUaNode]. *)
Inductive Status : Type :=
| InvalidNodeId
| InvalidNodeType
| InvalidObjectNode.

(** The [QObject]s of the scene, by identity: the method node itself, the
    [OpcUaNodeIdType] elements handed to [setObjectNodeId], the [OpcUaNode]
    objects [handleObjectNodeIdChanged] makes, and the [QOpcUaNode] handles
    of resolved nodes. *)
Inductive QObject : Type :=
| This
| NodeIdObject (n : nat)
| ResolutionObject (n : nat)
| NodeHandle (n : nat).

#[global] Instance QObject_eq_dec : EqDecision QObject.
Proof. solve_decision. Defined.

(** [QOpcUaNode], the handle of a resolved node: [nodeId()] and the cached
    value [attribute(QOpcUa::NodeAttribute::NodeClass)]. *)
Record QOpcUaNode : Type := Handle {
  handle : nat;
  nodeId : string;
  attribute_NodeClass : QVariant
}.

(** [OpcUaNode] as the method node uses the one it owns: the identity it
    was given with [setNodeId], and [node()], null until the node is
    resolved. *)
Record OpcUaNode : Type := Node {
  qobject : nat;
  boundTo : option nat;
  node : option QOpcUaNode
}.

(** [OpcUaMethodArgument]: [value()] and [type()]. *)
Record OpcUaMethodArgument : Type := Argument {
  value : QVariant;
  type : QOpcUa.Types
}.

(** [QOpcUa::TypedVariant] is a pair of a value and its type. *)
Definition TypedVariant : Type := QVariant * QOpcUa.Types.

(** The members: [m_node], [m_status] and [m_errorMessage] come with the
    base class [OpcUaNode], the others are the method node's own. *)
Record OpcUaMethodNode : Type := MethodNode {
  m_node : option QOpcUaNode;
  m_status : Status;
  m_errorMessage : string;
  m_objectNodeId : option nat;
  m_objectNode : option OpcUaNode;
  m_inputArguments : list OpcUaMethodArgument;
  m_outputArguments : list QVariant;
  m_resultStatusCode : QOpcUa.UaStatusCode
}.

Definition set_status (s : Status) (msg : string) (me : OpcUaMethodNode) :=
  MethodNode (m_node me) s msg (m_objectNodeId me) (m_objectNode me)
    (m_inputArguments me) (m_outputArguments me) (m_resultStatusCode me).
Definition set_objectNodeId (id : option nat) (me : OpcUaMethodNode) :=
  MethodNode (m_node me) (m_status me) (m_errorMessage me) id (m_objectNode me)
    (m_inputArguments me) (m_outputArguments me) (m_resultStatusCode me).
Definition set_objectNode (o : option OpcUaNode) (me : OpcUaMethodNode) :=
  MethodNode (m_node me) (m_status me) (m_errorMessage me) (m_objectNodeId me) o
    (m_inputArguments me) (m_outputArguments me) (m_resultStatusCode me).
Definition set_outputArguments (l : list QVariant) (me : OpcUaMethodNode) :=
  MethodNode (m_node me) (m_status me) (m_errorMessage me) (m_objectNodeId me)
    (m_objectNode me) (m_inputArguments me) l (m_resultStatusCode me).
Definition set_resultStatusCode (c : QOpcUa.UaStatusCode) (me : OpcUaMethodNode) :=
  MethodNode (m_node me) (m_status me) (m_errorMessage me) (m_objectNodeId me)
    (m_objectNode me) (m_inputArguments me) (m_outputArguments me) c.

(** Signals and slots, and the connection table of [QObject::connect]. *)
Inductive Signal : Type :=
| nodeChanged
| readyToUseChanged
| methodCallFinished
| resultStatusCodeChanged
| outputArgumentsChanged
| objectNodeIdChanged.

Inductive Slot : Type :=
| slot_handleObjectNodeIdChanged
| slot_readyToUse
| slot_handleMethodCallFinished.

Record Connection : Type := Connect {
  sender : QObject;
  signal : Signal;
  receiver : QObject;
  slot : Slot
}.

#[global] Instance Signal_eq_dec : EqDecision Signal.
Proof. solve_decision. Defined.
#[global] Instance Slot_eq_dec : EqDecision Slot.
Proof. solve_decision. Defined.
#[global] Instance Connection_eq_dec : EqDecision Connection.
Proof. solve_decision. Defined.

(** What a slot bound to one of the two result properties reads when it
    runs: [resultStatusCode] and [outputArguments]. *)
Definition Seen : Type := QOpcUa.UaStatusCode * list QVariant.

(** What the method node does to the outside, in the order it does it. *)
Inductive Event : Type :=
| Warning (msg : string)
| RemoteCall (on : QOpcUaNode) (methodNodeId : string) (arguments : list TypedVariant)
| Emitted (sig : Signal) (carried : option QOpcUa.UaStatusCode) (seen : Seen)
| DeleteLater (o : QObject).

Record World : Type := MkWorld {
  self : OpcUaMethodNode;
  connections : list Connection;
  allocated : nat;
  events : list Event
}.

(** A member function runs in the world and is undefined ([None]) where
    the source reads a member of an object through a null pointer. *)
Definition W (A : Type) : Type := World → option (A * World).

#[global] Instance W_ret : MRet W := λ A a w, Some (a, w).
#[global] Instance W_bind : MBind W := λ A B k c w,
  match c w with
  | Some (a, w') => k a w'
  | None => None
  end.

Definition get_self : W OpcUaMethodNode := λ w, Some (self w, w).
Definition modify_self (f : OpcUaMethodNode → OpcUaMethodNode) : W unit :=
  λ w, Some (tt, MkWorld (f (self w)) (connections w) (allocated w) (events w)).
Definition record (e : Event) : W unit :=
  λ w, Some (tt, MkWorld (self w) (connections w) (allocated w) (events w ++ [e])).
Definition deref {A} (p : option A) : W A :=
  λ w, match p with Some a => Some (a, w) | None => None end.
Definition new_object : W nat :=
  λ w, Some (allocated w, MkWorld (self w) (connections w) (S (allocated w)) (events w)).
Definition modify_connections (f : list Connection → list Connection) : W unit :=
  λ w, Some (tt, MkWorld (self w) (f (connections w)) (allocated w) (events w)).

Definition qCWarning (msg : string) : W unit := record (Warning msg).

(** [emit signal(...)]: the slots bound to the property run now and read
    the members as they are at this point. *)
Definition emit (sig : Signal) (carried : option QOpcUa.UaStatusCode) : W unit :=
  me ← get_self;
  record (Emitted sig carried (m_resultStatusCode me, m_outputArguments me)).

(** [QObject::connect(sender, signal, receiver, slot)]: one more entry,
    also when an equal one is there; nothing for a null sender. *)
Definition connect (s : option QObject) (sig : Signal) (r : QObject) (sl : Slot) : W unit :=
  match s with
  | Some s => modify_connections (λ cs, cs ++ [Connect s sig r sl])
  | None => qCWarning "QObject::connect: invalid nullptr parameter"
  end.

(** The same with [Qt::UniqueConnection]: nothing when the entry is there. *)
Definition connect_unique (s : option QObject) (sig : Signal) (r : QObject) (sl : Slot)
  : W unit :=
  match s with
  | Some s =>
      modify_connections (λ cs,
        if decide (Connect s sig r sl ∈ cs) then cs else cs ++ [Connect s sig r sl])
  | None => qCWarning "QObject::connect: invalid nullptr parameter"
  end.

(** The member [QObject::disconnect(const QObject *receiver)] called on
    [from]: it is [disconnect(from, nullptr, receiver, nullptr)] and drops
    every connection of a signal of [from] to a slot of [receiver]. *)
Definition disconnect (from r : QObject) : W unit :=
  modify_connections
    (filter (λ c, ¬ (sender c = from ∧ receiver c = r))).

(** Modelled from the spec: [OpcUaNode::setStatus(Status, const QString &)]
    is defined with the base class, in opcuanode.cpp; a failed
    check "sets a local status field", the third check of [checkValidity]
    "carrying a human-readable detail message".  It writes the status and
    the message of the node and nothing of the method node's own members. *)
Definition setStatus (s : Status) (message : string) : W unit :=
  modify_self (set_status s message).

(** [QOpcUaNode::callMethod(methodNodeId, arguments)] on the handle of the
    object node: the request goes out and the call returns. *)
Definition QOpcUaNode_callMethod (on : QOpcUaNode) (methodNodeId : string)
    (arguments : list TypedVariant) : W unit :=
  record (RemoteCall on methodNodeId arguments).

(** The loop of [callMethod]: one [push_back] per input argument. *)
Definition marshal (inputs : list OpcUaMethodArgument) : list TypedVariant :=
  foldl (λ arguments item, arguments ++ [(value item, type item)]) [] inputs.

(** [void OpcUaMethodNode::callMethod()]. *)
Definition callMethod : W unit :=
  me ← get_self;
  match m_objectNode me with
  | None =>
      qCWarning "No object node";;
      setStatus InvalidObjectNode ""
  | Some objectNode =>
      match node objectNode with
      | None =>
          qCWarning "Invalid object node";;
          setStatus InvalidObjectNode ""
      | Some target =>
          match m_node me with
          | None =>
              qCWarning "Invalid node Id";;
              setStatus InvalidNodeId ""
          | Some method =>
              QOpcUaNode_callMethod target (nodeId method)
                (marshal (m_inputArguments me))
          end
      end
  end.

(** [void OpcUaMethodNode::handleMethodCallFinished(QString methodNodeId,
    QVariant result, QOpcUa::UaStatusCode statusCode)]. *)
Definition handleMethodCallFinished (methodNodeId : string) (result : QVariant)
    (statusCode : QOpcUa.UaStatusCode) : W unit :=
  modify_self (set_resultStatusCode statusCode);;
  modify_self (set_outputArguments []);;
  (if canConvert_QVariantList result
   then modify_self (set_outputArguments (value_QVariantList result))
   else modify_self (λ me, set_outputArguments (m_outputArguments me ++ [result]) me));;
  me ← get_self;
  emit resultStatusCodeChanged (Some (m_resultStatusCode me));;
  emit outputArgumentsChanged None.

Definition detail_message : string :=
  "Object node is not of type `Object' or `ObjectType'".

(** [bool OpcUaMethodNode::checkValidity()].  [m_node->attribute(...)] is a
    call through [m_node], whatever it is. *)
Definition checkValidity : W bool :=
  me ← get_self;
  method ← deref (m_node me);
  if decide (value_NodeClass (attribute_NodeClass method) ≠ QOpcUa.Method)
  then setStatus InvalidNodeType "";; mret false
  else
    match m_objectNode me ≫= node with
    | None => setStatus InvalidObjectNode "";; mret false
    | Some target =>
        let objectNodeClass := value_NodeClass (attribute_NodeClass target) in
        if decide (objectNodeClass ≠ QOpcUa.Object ∧ objectNodeClass ≠ QOpcUa.ObjectType)
        then setStatus InvalidObjectNode detail_message;; mret false
        else mret true
    end.

(** The lambda bound to [readyToUseChanged] in [handleObjectNodeIdChanged]:
    it reads [m_objectNode] when it runs. *)
Definition on_readyToUseChanged : W unit :=
  me ← get_self;
  objectNode ← deref (m_objectNode me);
  connect_unique (NodeHandle ∘ handle <$> node objectNode) methodCallFinished
    This slot_handleMethodCallFinished.

(** [o->deleteLater()]: [QObject::deleteLater] is not virtual and reads no
    member, it posts the deferred delete event to [o]; for a null [o],
    [QCoreApplication::postEvent] warns, drops the event and returns. *)
Definition deleteLater (o : option OpcUaNode) : W unit :=
  match o with
  | Some old => record (DeleteLater (ResolutionObject (qobject old)))
  | None => qCWarning "QCoreApplication::postEvent: Unexpected null receiver"
  end.

(** [void OpcUaMethodNode::handleObjectNodeIdChanged()].  On a method node
    that has no resolution yet [m_objectNode] is null in the first
    statement. *)
Definition handleObjectNodeIdChanged : W unit :=
  me ← get_self;
  deleteLater (m_objectNode me);;
  o ← new_object;
  modify_self (set_objectNode (Some (Node o None None)));;
  modify_self (set_objectNode (Some (Node o (m_objectNodeId me) None)));;
  connect (Some (ResolutionObject o)) readyToUseChanged This slot_readyToUse;;
  emit objectNodeIdChanged None.

(** [void OpcUaMethodNode::setObjectNodeId(OpcUaNodeIdType *node)]. *)
Definition setObjectNodeId (node : nat) : W unit :=
  me ← get_self;
  match m_objectNodeId me with
  | Some old => disconnect This (NodeIdObject old)
  | None => mret tt
  end;;
  modify_self (set_objectNodeId (Some node));;
  connect (Some (NodeIdObject node)) nodeChanged This slot_handleObjectNodeIdChanged;;
  handleObjectNodeIdChanged.

(** What a signal carries to its slots. *)
Inductive Carried : Type :=
| NoArguments
| CallFinished (methodNodeId : string) (result : QVariant)
    (statusCode : QOpcUa.UaStatusCode).

Definition run_slot (sl : Slot) (args : Carried) : W unit :=
  match sl, args with
  | slot_handleObjectNodeIdChanged, _ => handleObjectNodeIdChanged
  | slot_readyToUse, _ => on_readyToUseChanged
  | slot_handleMethodCallFinished, CallFinished id result code =>
      handleMethodCallFinished id result code
  | slot_handleMethodCallFinished, NoArguments => mret tt
  end.

Fixpoint run_slots (cs : list Connection) (args : Carried) : W unit :=
  match cs with
  | [] => mret tt
  | c :: cs => run_slot (slot c) args;; run_slots cs args
  end.

(** An object of the scene emits a signal: the slots of the method node
    connected to it at that point run, in the order of connection. *)
Definition deliver (from : QObject) (sig : Signal) (args : Carried) : W unit :=
  λ w, run_slots
         (filter (λ c, sender c = from ∧ signal c = sig ∧ receiver c = This)
                 (connections w))
         args w.

(** The resolution of the object node finishes: [node()] of the object
    [o] is [h] from now on, and [o] emits [readyToUseChanged]. *)
Definition resolved (o : nat) (h : QOpcUaNode) : W unit :=
  modify_self (λ me,
    match m_objectNode me with
    | Some n => if decide (qobject n = o)
                then set_objectNode (Some (Node o (boundTo n) (Some h))) me
                else me
    | None => me
    end);;
  deliver (ResolutionObject o) readyToUseChanged NoArguments.

(** An object of the scene is destroyed (for one given to [deleteLater],
    when control is back in the event loop): [~QObject] drops the
    connections it is part of. *)
Definition destroyed (o : QObject) : W unit :=
  modify_connections (filter (λ c, ¬ (sender c = o ∨ receiver c = o))).

(** What [m_objectNode->deleteLater()] leaves in the events. *)
Definition deleteLater_event (o : option OpcUaNode) : Event :=
  match o with
  | Some old => DeleteLater (ResolutionObject (qobject old))
  | None => Warning "QCoreApplication::postEvent: Unexpected null receiver"
  end.


Definition is_RemoteCall (e : Event) : bool :=
  match e with
  | RemoteCall _ _ _ => true
  | _ => false
  end.

(** The object node handle [m_objectNode->node()], when both pointers are
    set. *)
Definition objectNode_handle (w : World) : option QOpcUaNode :=
  m_objectNode (self w) ≫= node.

(** Two idle method nodes with nothing set, one whose last call succeeded
    and one whose last call timed out. *)
Definition unset (last : QOpcUa.UaStatusCode) : World :=
  MkWorld (MethodNode None InvalidNodeId "" None None [] [] last) [] 0 [].

(** A method node ready to call: the method node and the object node are
    resolved, and there are the two [Double] arguments 3 and 4. *)
Definition ready : World :=
  MkWorld
    (MethodNode (Some (Handle 8 "ns=2;s=Example.Method" (VNodeClass QOpcUa.Method)))
       InvalidNodeId "" (Some 1%nat)
       (Some (Node 0 (Some 1%nat)
                (Some (Handle 9 "ns=2;s=Example.Object" (VNodeClass QOpcUa.Object)))))
       [Argument (VInt 3) QOpcUa.Double; Argument (VInt 4) QOpcUa.Double] []
       QOpcUa.Good)
    [] 1 [].

Definition class_of (n : QOpcUaNode) : QOpcUa.NodeClass :=
  value_NodeClass (attribute_NodeClass n).

(** The method node of [ready], with an object node that is a variable. *)
Definition variable_as_object : World :=
  MkWorld
    (MethodNode (Some (Handle 8 "ns=2;s=Example.Method" (VNodeClass QOpcUa.Method)))
       InvalidNodeId "" (Some 1%nat)
       (Some (Node 0 (Some 1%nat)
                (Some (Handle 9 "ns=2;s=Example.Variable" (VNodeClass QOpcUa.Variable_)))))
       [] [] QOpcUa.Good)
    [] 1 [].

Definition completion_connection (h : QOpcUaNode) : Connection :=
  Connect (NodeHandle (handle h)) methodCallFinished This slot_handleMethodCallFinished.

(** The method node with the identity object 1 set and its resolution
    (object 0) pending. *)
Definition pending : World :=
  MkWorld
    (MethodNode None InvalidNodeId "" (Some 1%nat) (Some (Node 0 (Some 1%nat) None))
       [] [] QOpcUa.Good)
    [Connect (NodeIdObject 1) nodeChanged This slot_handleObjectNodeIdChanged;
     Connect (ResolutionObject 0) readyToUseChanged This slot_readyToUse]
    1 [].

(** [pending] after [setObjectNodeId] of the identity object 2. *)
Definition replaced : World :=
  MkWorld
    (MethodNode None InvalidNodeId "" (Some 2%nat) (Some (Node 1 (Some 2%nat) None))
       [] [] QOpcUa.Good)
    [Connect (NodeIdObject 1) nodeChanged This slot_handleObjectNodeIdChanged;
     Connect (ResolutionObject 0) readyToUseChanged This slot_readyToUse;
     Connect (NodeIdObject 2) nodeChanged This slot_handleObjectNodeIdChanged;
     Connect (ResolutionObject 1) readyToUseChanged This slot_readyToUse]
    2
    [DeleteLater (ResolutionObject 0);
     Emitted objectNodeIdChanged None (QOpcUa.Good, [])].

(** *** The remaining members: getters and the list of input arguments *)

Definition set_inputArguments (l : list OpcUaMethodArgument) (me : OpcUaMethodNode) :=
  MethodNode (m_node me) (m_status me) (m_errorMessage me) (m_objectNodeId me)
    (m_objectNode me) l (m_outputArguments me) (m_resultStatusCode me).


(** [QVariantList OpcUaMethodNode::outputArguments()]. *)
Definition outputArguments : W (list QVariant) :=
  me ← get_self; mret (m_outputArguments me).

(** [QOpcUa::UaStatusCode OpcUaMethodNode::resultStatusCode() const]. *)
Definition resultStatusCode : W QOpcUa.UaStatusCode :=
  me ← get_self; mret (m_resultStatusCode me).

(** The four functions [inputArguments()] hands to the [QQmlListProperty];
    [list->data] is [&m_inputArguments].  [appendArgument]: [append(p)]. *)
Definition appendArgument (p : OpcUaMethodArgument) : W unit :=
  modify_self (λ me, set_inputArguments (m_inputArguments me ++ [p]) me).

(** [clearArguments]: [clear()]. *)
Definition clearArguments : W unit :=
  modify_self (set_inputArguments []).

(** [argument]: [at(i)] of the vector, which has no element outside
    [0 <= i < size()]. *)
Definition argument (i : Z) : W OpcUaMethodArgument :=
  me ← get_self;
  if decide (0 ≤ i < Z.of_nat (length (m_inputArguments me)))
  then deref (m_inputArguments me !! Z.to_nat i)
  else deref None.

(** [argumentCount]: [count()]. *)
Definition argumentCount : W Z :=
  me ← get_self; mret (Z.of_nat (length (m_inputArguments me))).

(** One [appendArgument] per item, in the order of the list. *)
Fixpoint appendArguments (items : list OpcUaMethodArgument) : W unit :=
  match items with
  | [] => mret tt
  | p :: items => appendArgument p;; appendArguments items
  end.

(** [n] readiness notifications of the resolution in a row. *)
Fixpoint notify_ready (n : nat) : W unit :=
  match n with
  | O => mret tt
  | S n => on_readyToUseChanged;; notify_ready n
  end.

(** Every connection of the table ends at the method node. *)
Definition receivers_are_this (w : World) : Prop :=
  ∀ c, c ∈ connections w → receiver c = This.

(** No slot of the method node is connected to the completion signal of the
    handle [h] yet. *)
Definition unsubscribed (h : QOpcUaNode) (w : World) : Prop :=
  ∀ c, c ∈ connections w →
       ¬ (sender c = NodeHandle (handle h) ∧ signal c = methodCallFinished ∧
          receiver c = This).

Definition arguments_of (w : World) : list OpcUaMethodArgument :=
  m_inputArguments (self w).

Definition example_object : QOpcUaNode :=
  Handle 9 "ns=2;s=Example.Object" (VNodeClass QOpcUa.Object).

Definition example_method : QOpcUaNode :=
  Handle 8 "ns=2;s=Example.Method" (VNodeClass QOpcUa.Method).

End MethodNode.

(** ** Properties of [QOpcUaHistoryData] *)

Module HistoryDataSpec.

Import HistoryData.

Lemma elem_of_holders o p (objs : gmap nat nat) :
  o ∈ holders p objs ↔ objs !! o = Some p.
Proof.
  unfold holders. rewrite elem_of_filter, elem_of_dom. naive_solver.
Qed.

Lemma holders_insert_eq o p (objs : gmap nat nat) :
  holders p (<[o := p]> objs) = {[o]} ∪ holders p objs.
Proof.
  apply set_eq. intros x. rewrite elem_of_union, elem_of_singleton, !elem_of_holders.
  destruct (decide (x = o)) as [->|]; simplify_map_eq; naive_solver.
Qed.

Lemma holders_insert_ne o p q (objs : gmap nat nat) :
  p ≠ q → holders q (<[o := p]> objs) = holders q objs ∖ {[o]}.
Proof.
  intros. apply set_eq. intros x.
  rewrite elem_of_difference, elem_of_singleton, !elem_of_holders.
  destruct (decide (x = o)) as [->|]; simplify_map_eq; naive_solver.
Qed.

Lemma holders_delete o q (objs : gmap nat nat) :
  holders q (delete o objs) = holders q objs ∖ {[o]}.
Proof.
  apply set_eq. intros x.
  rewrite elem_of_difference, elem_of_singleton, !elem_of_holders.
  destruct (decide (x = o)) as [->|]; simplify_map_eq; naive_solver.
Qed.

Lemma size_add_new (o : nat) (X : gset nat) :
  o ∉ X → size ({[o]} ∪ X) = S (size X).
Proof. intros. rewrite size_union by set_solver. by rewrite size_singleton. Qed.

Lemma size_add_old (o : nat) (X : gset nat) :
  o ∈ X → size ({[o]} ∪ X) = size X.
Proof. intros. f_equal. set_solver. Qed.

Lemma size_remove_old (o : nat) (X : gset nat) :
  o ∈ X → size (X ∖ {[o]}) = Nat.pred (size X).
Proof.
  intros. rewrite size_difference by set_solver. rewrite size_singleton. lia.
Qed.

Lemma size_remove_new (o : nat) (X : gset nat) :
  o ∉ X → size (X ∖ {[o]}) = size X.
Proof. intros. f_equal. set_solver. Qed.

Lemma size_two (a b : nat) (X : gset nat) :
  a ≠ b → a ∈ X → b ∈ X → (2 ≤ size X)%nat.
Proof.
  intros Hne Ha Hb.
  assert (Hsub : ({[a]} ∪ {[b]} : gset nat) ⊆ X) by set_solver.
  apply subseteq_size in Hsub.
  rewrite size_union, !size_singleton in Hsub by set_solver. lia.
Qed.

Lemma wf_ref_pos m o p d :
  wf m → objects m !! o = Some p → heap m !! p = Some d → (1 ≤ ref d)%nat.
Proof.
  intros Hwf Ho Hp. rewrite (wf_ref _ Hwf _ _ Hp).
  assert (o ∈ holders p (objects m)) as Hin by by apply elem_of_holders.
  destruct (decide (size (holders p (objects m)) = 0%nat)) as [H0|]; [|lia].
  apply size_empty_inv in H0. set_solver.
Qed.

Lemma wf_ref_shared m a b p d :
  wf m → a ≠ b → objects m !! a = Some p → objects m !! b = Some p →
  heap m !! p = Some d → (2 ≤ ref d)%nat.
Proof.
  intros Hwf Hne Ha Hb Hp. rewrite (wf_ref _ Hwf _ _ Hp).
  apply (size_two a b); [done | by apply elem_of_holders..].
Qed.

(** *** What the operations of the shared pointer do to the store *)

Ltac run := unfold mbind, mret, M_bind, M_ret, d_ptr, load, store, free,
  set_d_ptr, forget, sdp_new; simpl.

Lemma fresh_block_None m : heap m !! fresh (dom (heap m)) = None.
Proof. apply not_elem_of_dom, is_fresh. Qed.

Lemma detach_unshared m this p d :
  objects m !! this = Some p → heap m !! p = Some d → ref d = 1%nat →
  detach this m = Some (tt, m).
Proof.
  intros Ho Hp Hr. unfold detach. run. rewrite Ho. simpl. rewrite Hp. simpl.
  by rewrite decide_True.
Qed.

Lemma detach_shared m this p d :
  objects m !! this = Some p → heap m !! p = Some d → (2 ≤ ref d)%nat →
  let x := fresh (dom (heap m)) in
  detach this m =
    Some (tt, Mem (<[this := x]> (objects m))
                  (<[p := set_ref (Nat.pred (ref d)) d]> (<[x := set_ref 1 d]> (heap m)))).
Proof.
  intros Ho Hp Hr x. unfold detach. run. rewrite Ho. simpl. rewrite Hp. simpl.
  rewrite decide_False by lia. unfold ref_down. run.
  assert (p ≠ x) as Hne.
  { intros ->. pose proof (fresh_block_None m) as Hx. fold x in Hx. congruence. }
  fold x. rewrite lookup_insert_ne by done. rewrite Hp. simpl.
  by rewrite decide_False by lia.
Qed.

Lemma mutate_unshared m this p d f :
  objects m !! this = Some p → heap m !! p = Some d → ref d = 1%nat →
  mutate this f m = Some (tt, Mem (objects m) (<[p := f d]> (heap m))).
Proof.
  intros Ho Hp Hr. unfold mutate. unfold mbind at 1, M_bind at 1.
  rewrite (detach_unshared _ _ _ _ Ho Hp Hr). run. rewrite Ho. simpl.
  by rewrite Hp.
Qed.

Lemma mutate_shared m this p d f :
  objects m !! this = Some p → heap m !! p = Some d → (2 ≤ ref d)%nat →
  let x := fresh (dom (heap m)) in
  mutate this f m =
    Some (tt, Mem (<[this := x]> (objects m))
                  (<[x := f (set_ref 1 d)]>
                     (<[p := set_ref (Nat.pred (ref d)) d]> (heap m)))).
Proof.
  intros Ho Hp Hr x. unfold mutate. unfold mbind at 1, M_bind at 1.
  rewrite (detach_shared _ _ _ _ Ho Hp Hr). fold x. run.
  rewrite lookup_insert_eq. simpl.
  assert (p ≠ x) as Hne.
  { intros ->. pose proof (fresh_block_None m) as Hx. fold x in Hx. congruence. }
  rewrite lookup_insert_ne by done. rewrite lookup_insert_eq. simpl.
  do 3 f_equal. rewrite (insert_insert_ne _ p x) by done.
  by rewrite insert_insert_eq.
Qed.

(** *** The invariant is kept by every member function *)

Lemma size_holders_insert this p p' (objs : gmap nat nat) :
  size (holders p' (<[this := p]> objs)) =
    if decide (p' = p)
    then (if decide (objs !! this = Some p) then size (holders p objs)
          else S (size (holders p objs)))
    else (if decide (objs !! this = Some p') then Nat.pred (size (holders p' objs))
          else size (holders p' objs)).
Proof.
  destruct (decide (p' = p)) as [->|Hne].
  - rewrite holders_insert_eq. case_decide.
    + apply size_add_old. by apply elem_of_holders.
    + apply size_add_new. by rewrite elem_of_holders.
  - rewrite holders_insert_ne by done. case_decide.
    + apply size_remove_old. by apply elem_of_holders.
    + apply size_remove_new. by rewrite elem_of_holders.
Qed.

Lemma size_holders_delete this p' (objs : gmap nat nat) :
  size (holders p' (delete this objs)) =
    if decide (objs !! this = Some p') then Nat.pred (size (holders p' objs))
    else size (holders p' objs).
Proof.
  rewrite holders_delete. case_decide.
  - apply size_remove_old. by apply elem_of_holders.
  - apply size_remove_new. by rewrite elem_of_holders.
Qed.

Lemma wf_empty : wf (Mem ∅ ∅).
Proof. split; simpl; intros ?; intros; simplify_map_eq. Qed.

Lemma wf_sole_holder m this o p d :
  wf m → objects m !! this = Some p → heap m !! p = Some d →
  (ref d ≤ 1)%nat → objects m !! o = Some p → o = this.
Proof.
  intros Hwf Ht Hp Hr Ho. destruct (decide (o = this)) as [|Hne]; [done|].
  pose proof (wf_ref_shared _ _ _ _ _ Hwf Hne Ho Ht Hp). lia.
Qed.

Lemma ctor_copy_spec m this other p d :
  objects m !! other = Some p → heap m !! p = Some d →
  ctor_copy this other m =
    Some (tt, Mem (<[this := p]> (objects m))
                  (<[p := set_ref (S (ref d)) d]> (heap m))).
Proof.
  intros Ho Hp. unfold ctor_copy, ref_up. run. rewrite Ho. simpl. by rewrite Hp.
Qed.

Lemma wf_repoint m this p d :
  wf m → objects m !! this = None → heap m !! p = Some d →
  wf (Mem (<[this := p]> (objects m)) (<[p := set_ref (S (ref d)) d]> (heap m))).
Proof.
  intros Hwf Ht Hp. split; simpl.
  - intros o q Ho. assert (is_Some (heap m !! q)) as Hq.
    { destruct (decide (o = this)) as [->|].
      - rewrite lookup_insert_eq in Ho. by simplify_eq.
      - rewrite lookup_insert_ne in Ho by done. by apply (wf_alloc _ Hwf) in Ho. }
    destruct (decide (q = p)) as [->|].
    + by rewrite lookup_insert_eq.
    + by rewrite lookup_insert_ne.
  - intros q dq Hq. rewrite size_holders_insert. rewrite Ht.
    destruct (decide (q = p)) as [->|Hne].
    + rewrite lookup_insert_eq in Hq. injection Hq as <-.
      rewrite decide_False by congruence.
      simpl. f_equal. by apply (wf_ref _ Hwf).
    + rewrite lookup_insert_ne in Hq by done.
      rewrite decide_False by congruence.
      by apply (wf_ref _ Hwf).
Qed.

(** Letting go of a block: the object leaves [objects] and the count of
    its block goes down, the block with it when the count reaches 0. *)
Lemma wf_release m this p d :
  wf m → objects m !! this = Some p → heap m !! p = Some d →
  wf (Mem (delete this (objects m))
          (if decide (Nat.pred (ref d) = 0%nat) then delete p (heap m)
           else <[p := set_ref (Nat.pred (ref d)) d]> (heap m))).
Proof.
  intros Hwf Ht Hp. split; simpl.
  - intros o q Ho. apply lookup_delete_Some in Ho as [Hne Ho].
    pose proof (wf_alloc _ Hwf _ _ Ho) as Hq.
    destruct (decide (q = p)) as [->|Hqp].
    + case_decide as Hz.
      * exfalso. apply Hne. symmetry.
        apply (wf_sole_holder m this o p d); auto. lia.
      * by rewrite lookup_insert_eq.
    + case_decide; [by rewrite lookup_delete_ne | by rewrite lookup_insert_ne].
  - intros q dq Hq. rewrite size_holders_delete.
    destruct (decide (q = p)) as [->|Hqp].
    + rewrite decide_True by done. case_decide as Hz.
      * by rewrite lookup_delete_eq in Hq.
      * rewrite lookup_insert_eq in Hq. injection Hq as <-. simpl.
        f_equal. by apply (wf_ref _ Hwf).
    + rewrite decide_False by congruence.
      apply (wf_ref _ Hwf).
      case_decide; [by rewrite lookup_delete_ne in Hq | by rewrite lookup_insert_ne in Hq].
Qed.

Lemma dtor_spec m this p d :
  objects m !! this = Some p → heap m !! p = Some d →
  dtor this m =
    Some (tt, Mem (delete this (objects m))
                  (if decide (Nat.pred (ref d) = 0%nat) then delete p (heap m)
                   else <[p := set_ref (Nat.pred (ref d)) d]> (heap m))).
Proof.
  intros Ho Hp. unfold dtor, ref_down. run. rewrite Ho. simpl. rewrite Hp. simpl.
  by case_decide.
Qed.

Lemma wf_dtor m this :
  wf m → is_Some (objects m !! this) →
  ∃ m', dtor this m = Some (tt, m') ∧ wf m' ∧ objects m' !! this = None.
Proof.
  intros Hwf [p Ho]. destruct (wf_alloc _ Hwf _ _ Ho) as [d Hp].
  eexists. split; [by apply dtor_spec|]. split; [by apply wf_release|].
  simpl. apply lookup_delete_eq.
Qed.

(** *** Mutation through a non-const member *)

Lemma set_ref_id d : set_ref (ref d) d = d.
Proof. by destruct d. Qed.

Lemma observe_unfold o m :
  observe o m = p ← objects m !! o; d ← heap m !! p; Some (payload d).
Proof.
  unfold observe, read. run. destruct (objects m !! o) as [p|]; simpl; [|done].
  by destruct (heap m !! p).
Qed.

Lemma observe_spec o m p d :
  objects m !! o = Some p → heap m !! p = Some d → observe o m = Some (payload d).
Proof. intros Ho Hp. rewrite observe_unfold, Ho. simpl. by rewrite Hp. Qed.

Lemma keeps_ref_ref f d : keeps_ref f → ref (f d) = ref d.
Proof. intros Hf. rewrite <- (set_ref_id d) at 1. by rewrite Hf. Qed.

Lemma keeps_ref_payload f n d : keeps_ref f → payload (f (set_ref n d)) = payload (f d).
Proof. intros Hf. rewrite Hf. by destruct (f d). Qed.

Lemma mutate_spec m this p d f :
  wf m → objects m !! this = Some p → heap m !! p = Some d → keeps_ref f →
  ∃ m', mutate this f m = Some (tt, m') ∧ wf m' ∧
        observe this m' = Some (payload (f d)) ∧
        (∀ o, o ≠ this → objects m' !! o = objects m !! o) ∧
        (∀ o, o ≠ this → observe o m' = observe o m).
Proof.
  intros Hwf Ht Hp Hf.
  pose proof (wf_ref_pos _ _ _ _ Hwf Ht Hp) as Hpos.
  destruct (decide (ref d = 1%nat)) as [Hone|Hmany].
  - eexists. split; [by apply mutate_unshared|].
    split; [|split; [|split]].
    + split; simpl.
      * intros o q Ho. apply (wf_alloc _ Hwf) in Ho.
        destruct (decide (q = p)) as [->|]; [by rewrite lookup_insert_eq|].
        by rewrite lookup_insert_ne.
      * intros q dq Hq. destruct (decide (q = p)) as [->|].
        -- rewrite lookup_insert_eq in Hq. injection Hq as <-.
           rewrite keeps_ref_ref by done. by apply (wf_ref _ Hwf).
        -- rewrite lookup_insert_ne in Hq by done. by apply (wf_ref _ Hwf).
    + apply (observe_spec _ _ p); simpl; [done|]. by rewrite lookup_insert_eq.
    + done.
    + intros o Hne. rewrite !observe_unfold. simpl.
      destruct (objects m !! o) as [q|] eqn:Ho; simpl; [|done].
      rewrite lookup_insert_ne; [done|]. intros <-.
      apply Hne. apply (wf_sole_holder m this o p d); auto. lia.
  - assert (2 ≤ ref d)%nat as Htwo by lia.
    pose proof (fresh_block_None m) as Hx.
    set (x := fresh (dom (heap m))) in *.
    assert (p ≠ x) as Hpx by (intros ->; congruence).
    assert (∀ o, objects m !! o ≠ Some x) as Hnox.
    { intros o Ho. apply (wf_alloc _ Hwf) in Ho. rewrite Hx in Ho. by destruct Ho. }
    eexists. split; [by apply mutate_shared|]. fold x.
    split; [|split; [|split]].
    + split; simpl.
      * intros o q Ho. destruct (decide (o = this)) as [->|].
        -- rewrite lookup_insert_eq in Ho. injection Ho as <-.
           by rewrite lookup_insert_eq.
        -- rewrite lookup_insert_ne in Ho by done.
           apply (wf_alloc _ Hwf) in Ho.
           rewrite lookup_insert_ne
             by (intros <-; rewrite Hx in Ho; by destruct Ho).
           destruct (decide (q = p)) as [->|]; [by rewrite lookup_insert_eq|].
           by rewrite lookup_insert_ne.
      * intros q dq Hq. rewrite size_holders_insert.
        destruct (decide (q = x)) as [->|Hqx].
        -- rewrite lookup_insert_eq in Hq. injection Hq as <-.
           rewrite decide_False by apply Hnox.
           rewrite keeps_ref_ref by done. simpl.
           assert (holders x (objects m) = ∅) as ->; [|by rewrite size_empty].
           apply set_eq. intros o. rewrite elem_of_holders.
           split; [intros Ho; by apply Hnox in Ho | set_solver].
        -- rewrite lookup_insert_ne in Hq by done.
           destruct (decide (q = p)) as [->|Hqp].
           ++ rewrite lookup_insert_eq in Hq. injection Hq as <-.
              rewrite decide_True by done. simpl. f_equal.
              by apply (wf_ref _ Hwf).
           ++ rewrite lookup_insert_ne in Hq by done.
              rewrite decide_False by congruence. by apply (wf_ref _ Hwf).
    + rewrite (observe_spec _ _ x (f (set_ref 1 d))); simpl;
        [by rewrite keeps_ref_payload | by rewrite lookup_insert_eq..].
    + intros o Hne. simpl. by rewrite lookup_insert_ne.
    + intros o Hne. rewrite !observe_unfold. simpl.
      rewrite lookup_insert_ne by done.
      destruct (objects m !! o) as [q|] eqn:Ho; simpl; [|done].
      rewrite lookup_insert_ne by (intros <-; by apply Hnox in Ho).
      destruct (decide (q = p)) as [->|].
      * rewrite lookup_insert_eq, Hp. simpl. by destruct d.
      * by rewrite lookup_insert_ne.
Qed.

(** *** Construction *)

Lemma owns_observe m this d : owns m this d → observe this m = Some (payload d).
Proof. intros (p & Ho & Hp & _). by apply (observe_spec _ _ p). Qed.

Lemma mutate_owns m this d f :
  owns m this d → keeps_ref f →
  ∃ m', mutate this f m = Some (tt, m') ∧ owns m' this (f d).
Proof.
  intros (p & Ho & Hp & Hr) Hf. eexists. split; [by apply (mutate_unshared _ _ p)|].
  exists p. simpl. rewrite lookup_insert_eq. by rewrite keeps_ref_ref.
Qed.

Lemma keeps_ref_set_statusCode c : keeps_ref (set_statusCode c).
Proof. by intros n []. Qed.
Lemma keeps_ref_set_nodeId s : keeps_ref (set_nodeId s).
Proof. by intros n []. Qed.
Lemma keeps_ref_append v : keeps_ref (λ d, set_result (result d ++ [v]) d).
Proof. by intros n []. Qed.

Lemma bind_run {A B} (c : M A) (k : A → M B) m a m' :
  c m = Some (a, m') → (c ≫= k) m = k a m'.
Proof. intros H. unfold mbind, M_bind. by rewrite H. Qed.

Lemma ctor_owns m this :
  ∃ m', ctor this m = Some (tt, m') ∧ owns m' this (empty_record "").
Proof.
  set (m1 := Mem (<[this := fresh (dom (heap m))]> (objects m))
                 (<[fresh (dom (heap m)) := set_ref 1 new_data]> (heap m))).
  assert (owns m1 this (set_ref 1 new_data)) as Hown.
  { exists (fresh (dom (heap m))). simpl. by rewrite !lookup_insert_eq. }
  destruct (mutate_owns _ _ _ _ Hown (keeps_ref_set_statusCode QOpcUa.Good))
    as (m' & Hrun & Hown').
  exists m'. split; [|done]. unfold ctor. by run.
Qed.

Lemma ctor_nodeId_owns m this id :
  ∃ m', ctor_nodeId this id m = Some (tt, m') ∧ owns m' this (empty_record id).
Proof.
  set (m1 := Mem (<[this := fresh (dom (heap m))]> (objects m))
                 (<[fresh (dom (heap m)) := set_ref 1 new_data]> (heap m))).
  assert (owns m1 this (set_ref 1 new_data)) as Hown.
  { exists (fresh (dom (heap m))). simpl. by rewrite !lookup_insert_eq. }
  destruct (mutate_owns _ _ _ _ Hown (keeps_ref_set_statusCode QOpcUa.Good))
    as (m2 & Hrun2 & Hown2).
  destruct (mutate_owns _ _ _ _ Hown2 (keeps_ref_set_nodeId id))
    as (m' & Hrun & Hown').
  exists m'. split; [|done]. unfold ctor_nodeId. run.
  fold m1. unfold mbind, M_bind in Hrun2. by rewrite Hrun2.
Qed.

Lemma addValues_owns m this d values :
  owns m this d →
  ∃ m', addValues this values m = Some (tt, m') ∧
        owns m' this (set_result (result d ++ values) d).
Proof.
  revert m d. induction values as [|v vs IH]; intros m d Hown.
  - exists m. split; [done|]. rewrite app_nil_r.
    destruct Hown as (p & ? & ? & ?). exists p. by destruct d.
  - destruct (mutate_owns _ _ _ _ Hown (keeps_ref_append v)) as (m1 & Hrun & Hown1).
    destruct (IH _ _ Hown1) as (m' & Hrun' & Hown').
    exists m'. split.
    + simpl. unfold addValue. by rewrite (bind_run _ _ _ _ _ Hrun).
    + simpl in Hown'. by rewrite <- app_assoc in Hown'.
Qed.

Lemma wf_fresh_block m this d :
  wf m → objects m !! this = None →
  wf (Mem (<[this := fresh (dom (heap m))]> (objects m))
          (<[fresh (dom (heap m)) := set_ref 1 d]> (heap m))).
Proof.
  intros Hwf Ht. pose proof (fresh_block_None m) as Hx.
  set (x := fresh (dom (heap m))) in *.
  assert (∀ o, objects m !! o ≠ Some x) as Hnox.
  { intros o Ho. apply (wf_alloc _ Hwf) in Ho. rewrite Hx in Ho. by destruct Ho. }
  split; simpl.
  - intros o q Ho. destruct (decide (o = this)) as [->|].
    + rewrite lookup_insert_eq in Ho. injection Ho as <-. by rewrite lookup_insert_eq.
    + rewrite lookup_insert_ne in Ho by done. apply (wf_alloc _ Hwf) in Ho.
      rewrite lookup_insert_ne; [done|]. intros <-. rewrite Hx in Ho. by destruct Ho.
  - intros q dq Hq. rewrite size_holders_insert. rewrite Ht.
    destruct (decide (q = x)) as [->|Hqx].
    + rewrite lookup_insert_eq in Hq. injection Hq as <-.
      rewrite decide_False by congruence. simpl.
      assert (holders x (objects m) = ∅) as ->; [|by rewrite size_empty].
      apply set_eq. intros o. rewrite elem_of_holders.
      split; [intros Ho; by apply Hnox in Ho | set_solver].
    + rewrite lookup_insert_ne in Hq by done.
      rewrite decide_False by congruence. by apply (wf_ref _ Hwf).
Qed.

Lemma wf_ctor m this :
  wf m → objects m !! this = None →
  ∃ m', ctor this m = Some (tt, m') ∧ wf m' ∧
        (∀ o, o ≠ this → observe o m' = observe o m).
Proof.
  intros Hwf Ht.
  pose proof (wf_fresh_block m this new_data Hwf Ht) as Hwf1.
  set (x := fresh (dom (heap m))) in *.
  set (m1 := Mem (<[this := x]> (objects m)) (<[x := set_ref 1 new_data]> (heap m))) in *.
  destruct (mutate_spec m1 this x (set_ref 1 new_data) (set_statusCode QOpcUa.Good))
    as (m' & Hrun & Hwf' & _ & _ & Hothers); auto using keeps_ref_set_statusCode.
  { simpl. by rewrite lookup_insert_eq. }
  { simpl. by rewrite lookup_insert_eq. }
  exists m'. split; [unfold ctor; by run|]. split; [done|].
  intros o Hne. rewrite (Hothers o Hne). rewrite !observe_unfold. simpl.
  rewrite lookup_insert_ne by done.
  destruct (objects m !! o) as [q|] eqn:Ho; simpl; [|done].
  rewrite lookup_insert_ne; [done|]. intros <-.
  apply (wf_alloc _ Hwf) in Ho. pose proof (fresh_block_None m) as Hx.
  fold x in Hx. rewrite Hx in Ho. by destruct Ho.
Qed.

(** *** Assignment *)

Lemma assign_self m this : assign this this m = Some (tt, m).
Proof. unfold assign. by rewrite decide_True. Qed.

Lemma assign_same_block m this rhs p :
  objects m !! rhs = Some p → objects m !! this = Some p →
  assign this rhs m = Some (tt, m).
Proof.
  intros Hr Ht. unfold assign. case_decide; [done|]. run.
  rewrite Hr. simpl. rewrite Ht. simpl. by rewrite decide_True.
Qed.

Lemma assign_other_block m this rhs o d bo bd :
  this ≠ rhs → objects m !! rhs = Some o → objects m !! this = Some d → o ≠ d →
  heap m !! o = Some bo → heap m !! d = Some bd →
  assign this rhs m =
    Some (tt, Mem (<[this := o]> (objects m))
                  (if decide (Nat.pred (ref bd) = 0%nat)
                   then delete d (<[o := set_ref (S (ref bo)) bo]> (heap m))
                   else <[d := set_ref (Nat.pred (ref bd)) bd]>
                          (<[o := set_ref (S (ref bo)) bo]> (heap m)))).
Proof.
  intros Hne Hr Ht Hod Ho Hd. unfold assign. rewrite decide_False by done.
  unfold ref_up, ref_down. run. rewrite Hr. simpl. rewrite Ht. simpl.
  rewrite decide_False by done. rewrite Ho. simpl.
  rewrite lookup_insert_ne by done. rewrite Hd. simpl. by case_decide.
Qed.

Lemma wf_assign m this rhs :
  wf m → is_Some (objects m !! this) → is_Some (objects m !! rhs) →
  ∃ m', assign this rhs m = Some (tt, m') ∧ wf m' ∧
        objects m' !! this = objects m !! rhs ∧
        (∀ o, o ≠ this → objects m' !! o = objects m !! o) ∧
        (∀ o, o ≠ this → observe o m' = observe o m).
Proof.
  intros Hwf [d Ht] [o Hr].
  destruct (decide (this = rhs)) as [->|Hne].
  { exists m. rewrite assign_self. by rewrite Ht in Hr |- *. }
  destruct (decide (o = d)) as [->|Hod].
  { exists m. rewrite (assign_same_block _ _ _ d) by done. by rewrite Ht, Hr. }
  destruct (wf_alloc _ Hwf _ _ Hr) as [bo Ho].
  destruct (wf_alloc _ Hwf _ _ Ht) as [bd Hd].
  eexists. split; [by eapply assign_other_block|].
  split; [|split; [|split]]; simpl;
    [|by rewrite lookup_insert_eq|intros; by rewrite lookup_insert_ne|].
  2:{ intros x Hx. rewrite !observe_unfold. simpl.
      rewrite lookup_insert_ne by done.
      destruct (objects m !! x) as [q|] eqn:Hq; simpl; [|done].
      assert (q = d → Nat.pred (ref bd) ≠ 0%nat) as Hkeep.
      { intros ->. pose proof (wf_ref_shared _ _ _ _ _ Hwf Hx Hq Ht Hd). lia. }
      destruct (decide (q = d)) as [->|Hqd].
      - rewrite decide_False by auto. rewrite lookup_insert_eq, Hd. by destruct bd.
      - assert ((<[o:=set_ref (S (ref bo)) bo]> (heap m) !! q) ≫= (λ b, Some (payload b))
                = (heap m !! q) ≫= (λ b, Some (payload b))) as Hsame.
        { destruct (decide (q = o)) as [->|].
          - rewrite lookup_insert_eq, Ho. by destruct bo.
          - by rewrite lookup_insert_ne. }
        case_decide; [by rewrite lookup_delete_ne | by rewrite lookup_insert_ne]. }
  pose proof (wf_release m this d bd Hwf Ht Hd) as Hwf1.
  set (m1 := Mem _ _) in Hwf1.
  assert (heap m1 !! o = Some bo) as Ho1.
  { subst m1. simpl. case_decide; [by rewrite lookup_delete_ne | by rewrite lookup_insert_ne]. }
  assert (objects m1 !! this = None) as Ht1 by (subst m1; simpl; apply lookup_delete_eq).
  pose proof (wf_repoint m1 this o bo Hwf1 Ht1 Ho1) as Hwf2.
  subst m1. simpl in Hwf2. rewrite insert_delete_eq in Hwf2.
  case_decide.
  - by rewrite <- delete_insert_ne in Hwf2 by done.
  - by rewrite insert_insert_ne in Hwf2 by done.
Qed.

(** *** Copies *)

Lemma wf_ctor_copy_spec m this other :
  wf m → objects m !! this = None → is_Some (objects m !! other) →
  ∃ m', ctor_copy this other m = Some (tt, m') ∧ wf m' ∧
        objects m' !! this = objects m !! other ∧
        (∀ o, o ≠ this → objects m' !! o = objects m !! o) ∧
        (∀ o, o ≠ this → observe o m' = observe o m).
Proof.
  intros Hwf Ht [p Ho]. destruct (wf_alloc _ Hwf _ _ Ho) as [d Hp].
  eexists. split; [by apply ctor_copy_spec|].
  split; [by apply wf_repoint|]. simpl.
  split; [by rewrite lookup_insert_eq|].
  split; [intros; by rewrite lookup_insert_ne|].
  intros o Hne. rewrite !observe_unfold. simpl. rewrite lookup_insert_ne by done.
  destruct (objects m !! o) as [q|]; simpl; [|done].
  destruct (decide (q = p)) as [->|].
  - rewrite lookup_insert_eq, Hp. by destruct d.
  - by rewrite lookup_insert_ne.
Qed.

Lemma make_copy_spec k m a b :
  wf m → is_Some (objects m !! a) → can_copy k b m →
  ∃ m', make_copy k b a m = Some (tt, m') ∧ wf m' ∧
        objects m' !! b = objects m !! a ∧
        (∀ o, o ≠ b → objects m' !! o = objects m !! o) ∧
        (∀ o, o ≠ b → observe o m' = observe o m).
Proof.
  intros Hwf Ha Hb. destruct k; simpl in *.
  - by apply wf_ctor_copy_spec.
  - by apply wf_assign.
Qed.

Lemma observe_same_block m a b :
  objects m !! b = objects m !! a → observe b m = observe a m.
Proof. intros H. by rewrite !observe_unfold, H. Qed.

Lemma count_of_observe o m :
  count_of o m = (λ v, Z.of_nat (length v.1.1)) <$> observe o m.
Proof.
  unfold count_of, count, observe, read. run.
  destruct (objects m !! o) as [p|]; simpl; [|done]. by destruct (heap m !! p).
Qed.

Lemma result_of_observe o m : result_of o m = (λ v, v.1.1) <$> observe o m.
Proof.
  unfold result_of, get_result, observe, read. run.
  destruct (objects m !! o) as [p|]; simpl; [|done]. by destruct (heap m !! p).
Qed.

Lemma observe_live o m v :
  observe o m = Some v →
  ∃ p d, objects m !! o = Some p ∧ heap m !! p = Some d ∧ payload d = v.
Proof.
  rewrite observe_unfold. destruct (objects m !! o) as [p|]; simpl; [|done].
  destruct (heap m !! p) as [d|] eqn:Hp; simpl; [|done]. intros [= <-].
  by exists p, d.
Qed.

Lemma addValue_spec m this r c n v :
  wf m → observe this m = Some (r, c, n) →
  ∃ m', addValue this v m = Some (tt, m') ∧ wf m' ∧
        observe this m' = Some (r ++ [v], c, n) ∧
        (∀ o, o ≠ this → objects m' !! o = objects m !! o) ∧
        (∀ o, o ≠ this → observe o m' = observe o m).
Proof.
  intros Hwf Hobs. apply observe_live in Hobs as (p & d & Ho & Hp & Hd).
  destruct (mutate_spec m this p d _ Hwf Ho Hp (keeps_ref_append v))
    as (m' & Hrun & Hwf' & Hthis & Hobjs & Hothers).
  exists m'. split; [done|]. split; [done|]. split; [|done].
  rewrite Hthis. destruct d. simpl in *. by injection Hd as -> -> ->.
Qed.

Lemma mutate_after_copy m this other v f :
  wf m → this ≠ other → observe this m = Some v → observe other m = Some v →
  keeps_ref f →
  ∃ m', mutate this f m = Some (tt, m') ∧ observe other m' = Some v.
Proof.
  intros Hwf Hne Hthis Hother Hf.
  apply observe_live in Hthis as (p & d & Ho & Hp & Hd).
  destruct (mutate_spec m this p d f Hwf Ho Hp Hf) as (m' & Hrun & _ & _ & _ & Hothers).
  exists m'. split; [done|]. rewrite Hothers by done. done.
Qed.

(** C4.  Copy on write: let [b] be a copy of the record [a], made by the
    copy constructor or by assignment, in a store that keeps the sharing
    invariant.  Then [b.addValue(x)] returns and leaves everything that can
    be observed of [a] as it was, [a.count()] included, and
    [a.count() + 1 = b.count()] afterwards; the same holds with [a] and [b]
    exchanged, and for every mutating member in place of [addValue]. *)
Theorem copy_on_write (m : Memory) (a b : nat) (k : Copy) (x : QOpcUaDataValue) :
  wf m → is_Some (objects m !! a) → a ≠ b → can_copy k b m →
  ∃ r c n m1,
    observe a m = Some (r, c, n) ∧
    make_copy k b a m = Some (tt, m1) ∧
    observe a m1 = Some (r, c, n) ∧
    observe b m1 = Some (r, c, n) ∧
    (∃ m2, addValue b x m1 = Some (tt, m2) ∧
           observe a m2 = observe a m ∧
           count_of a m2 = count_of a m ∧
           count_of a m2 = Some (Z.of_nat (length r)) ∧
           count_of b m2 = Some (Z.of_nat (length r) + 1)) ∧
    (∃ m2, addValue a x m1 = Some (tt, m2) ∧
           observe b m2 = observe a m ∧
           count_of b m2 = Some (Z.of_nat (length r)) ∧
           count_of a m2 = Some (Z.of_nat (length r) + 1)) ∧
    (∀ this other f,
       this = a ∧ other = b ∨ this = b ∧ other = a → keeps_ref f →
       ∃ m2, mutate this f m1 = Some (tt, m2) ∧ observe other m2 = observe a m).
Proof.
  intros Hwf Ha Hne Hb.
  destruct (make_copy_spec k m a b Hwf Ha Hb)
    as (m1 & Hrun & Hwf1 & Hshare & Hobjs & Hobs).
  assert (∃ v, observe a m = Some v) as [[[r c] n] Hv].
  { destruct Ha as [p Hp]. destruct (wf_alloc _ Hwf _ _ Hp) as [d Hd].
    exists (payload d). by apply (observe_spec _ _ p). }
  assert (observe a m1 = Some (r, c, n)) as Ha1 by (rewrite Hobs; done).
  assert (observe b m1 = Some (r, c, n)) as Hb1.
  { rewrite <- Ha1. apply observe_same_block. rewrite Hshare. symmetry. by apply Hobjs. }
  exists r, c, n, m1. repeat split; try done.
  - destruct (addValue_spec m1 b r c n x Hwf1 Hb1) as (m2 & Hrun2 & _ & Hb2 & _ & Hothers).
    exists m2. split; [done|].
    rewrite !count_of_observe, Hb2, (Hothers a), Ha1, Hv by done. simpl.
    repeat split; try done. rewrite length_app. simpl. do 2 f_equal. lia.
  - destruct (addValue_spec m1 a r c n x Hwf1 Ha1) as (m2 & Hrun2 & _ & Ha2 & _ & Hothers).
    exists m2. split; [done|].
    rewrite !count_of_observe, Ha2, (Hothers b), Hb1, Hv by done. simpl.
    repeat split; try done. rewrite length_app. simpl. do 2 f_equal. lia.
  - intros this other f [[-> ->]|[-> ->]] Hf; rewrite Hv.
    + by apply mutate_after_copy.
    + by apply mutate_after_copy.
Qed.

(** C8.  A record made by either construction and then filled by a run of
    [addValue] calls has [count()] equal to the number of calls and
    [result()] equal to the samples in the order they were added; [count()]
    is the length of [result()] in every store; and [addValue] on any live
    record puts the sample at the end of what is there, in the same order. *)
Theorem addValue_count_and_order (m : Memory) (this : nat) (id : option string)
    (values : list QOpcUaDataValue) :
  (∃ m', (construct this id;; addValues this values) m = Some (tt, m') ∧
         count_of this m' = Some (Z.of_nat (length values)) ∧
         result_of this m' = Some values) ∧
  (∀ m0 o, count_of o m0 = (λ r, Z.of_nat (length r)) <$> result_of o m0) ∧
  (∀ m0 o r v, wf m0 → result_of o m0 = Some r →
     ∃ m1, addValue o v m0 = Some (tt, m1) ∧ result_of o m1 = Some (r ++ [v])).
Proof.
  split; [|split].
  - assert (∃ m1 s, construct this id m = Some (tt, m1) ∧ owns m1 this (empty_record s))
      as (m1 & s & Hrun1 & Hown1).
    { destruct id as [s|]; simpl.
      - destruct (ctor_nodeId_owns m this s) as (m1 & ? & ?). by exists m1, s.
      - destruct (ctor_owns m this) as (m1 & ? & ?). by exists m1, "". }
    destruct (addValues_owns m1 this _ values Hown1) as (m' & Hrun & Hown).
    exists m'. split; [by rewrite (bind_run _ _ _ _ _ Hrun1)|].
    apply owns_observe in Hown.
    by rewrite count_of_observe, result_of_observe, Hown.
  - intros m0 o. rewrite count_of_observe, result_of_observe.
    by destruct (observe o m0).
  - intros m0 o r v Hwf Hr. rewrite result_of_observe in Hr.
    destruct (observe o m0) as [[[r' c] n]|] eqn:Hobs; simpl in Hr; [|done].
    injection Hr as ->.
    destruct (addValue_spec m0 o r c n v Hwf Hobs) as (m1 & Hrun & _ & Hobs1 & _).
    exists m1. split; [done|]. by rewrite result_of_observe, Hobs1.
Qed.

(** *** Every store a program reaches keeps the invariant *)

Lemma wf_mutate m this f :
  wf m → is_Some (objects m !! this) → keeps_ref f →
  ∃ m', mutate this f m = Some (tt, m') ∧ wf m' ∧
        is_Some (objects m' !! this).
Proof.
  intros Hwf [p Ho] Hf. destruct (wf_alloc _ Hwf _ _ Ho) as [d Hp].
  destruct (mutate_spec m this p d f Hwf Ho Hp Hf) as (m' & Hrun & Hwf' & Hobs & _).
  exists m'. split; [done|]. split; [done|].
  apply observe_live in Hobs as (q & ? & -> & _). by eexists.
Qed.

Lemma wf_construct m this id :
  wf m → objects m !! this = None →
  ∃ m', construct this id m = Some (tt, m') ∧ wf m'.
Proof.
  intros Hwf Ht. destruct id as [s|]; simpl.
  - pose proof (wf_fresh_block m this new_data Hwf Ht) as Hwf1.
    set (m1 := Mem _ _) in Hwf1.
    destruct (wf_mutate m1 this (set_statusCode QOpcUa.Good) Hwf1)
      as (m2 & Hrun2 & Hwf2 & Hlive2); auto using keeps_ref_set_statusCode.
    { subst m1. simpl. rewrite lookup_insert_eq. by eexists. }
    destruct (wf_mutate m2 this (set_nodeId s) Hwf2 Hlive2 (keeps_ref_set_nodeId s))
      as (m' & Hrun & Hwf' & _).
    exists m'. split; [|done]. unfold ctor_nodeId. run. fold m1.
    unfold mbind, M_bind in Hrun2. by rewrite Hrun2.
  - destruct (wf_ctor m this Hwf Ht) as (m' & ? & ? & _). by exists m'.
Qed.

Lemma wf_call c m :
  wf m → legal c m → ∃ m', call c m = Some (tt, m') ∧ wf m'.
Proof.
  intros Hwf Hlegal. destruct c; simpl in *.
  - by apply wf_construct.
  - destruct Hlegal as [Ht Ho].
    destruct (wf_ctor_copy_spec m this other Hwf Ht Ho) as (m' & ? & ? & _).
    by exists m'.
  - destruct Hlegal as [Ht Hr].
    destruct (wf_assign m this rhs Hwf Ht Hr) as (m' & ? & ? & _). by exists m'.
  - destruct (wf_dtor m this Hwf Hlegal) as (m' & ? & ? & _). by exists m'.
  - destruct (wf_mutate m this _ Hwf Hlegal (keeps_ref_append value)) as (m' & ? & ? & _).
    by exists m'.
  - destruct (wf_mutate m this _ Hwf Hlegal (keeps_ref_set_statusCode c)) as (m' & ? & ? & _).
    by exists m'.
  - destruct (wf_mutate m this _ Hwf Hlegal (keeps_ref_set_nodeId id)) as (m' & ? & ? & _).
    by exists m'.
Qed.

Lemma reachable_wf m : reachable m → wf m.
Proof.
  induction 1 as [|m m' c _ IH Hlegal Hrun]; [apply wf_empty|].
  destruct (wf_call c m IH Hlegal) as (m'' & Hrun' & Hwf). congruence.
Qed.

Lemma wf_one_record : wf one_record.
Proof.
  destruct (wf_ctor (Mem ∅ ∅) 0%nat wf_empty) as (m' & Hrun & Hwf & _); [done|].
  vm_compute in Hrun. by injection Hrun as <-.
Qed.

(** [copy_on_write] for the copy constructor, on the store with one record. *)
Lemma copy_on_write_witness :
  ∃ r c n m1,
    observe 0%nat one_record = Some (r, c, n) ∧
    make_copy CopyConstructed 1%nat 0%nat one_record = Some (tt, m1) ∧
    observe 0%nat m1 = Some (r, c, n) ∧
    observe 1%nat m1 = Some (r, c, n) ∧
    (∃ m2, addValue 1%nat (DataValue (VInt 7) 0 QOpcUa.Good) m1 = Some (tt, m2) ∧
           observe 0%nat m2 = observe 0%nat one_record ∧
           count_of 0%nat m2 = count_of 0%nat one_record ∧
           count_of 0%nat m2 = Some (Z.of_nat (length r)) ∧
           count_of 1%nat m2 = Some (Z.of_nat (length r) + 1)) ∧
    (∃ m2, addValue 0%nat (DataValue (VInt 7) 0 QOpcUa.Good) m1 = Some (tt, m2) ∧
           observe 1%nat m2 = observe 0%nat one_record ∧
           count_of 1%nat m2 = Some (Z.of_nat (length r)) ∧
           count_of 0%nat m2 = Some (Z.of_nat (length r) + 1)) ∧
    (∀ this other f,
       this = 0%nat ∧ other = 1%nat ∨ this = 1%nat ∧ other = 0%nat → keeps_ref f →
       ∃ m2, mutate this f m1 = Some (tt, m2) ∧ observe other m2 = observe 0%nat one_record).
Proof.
  apply (copy_on_write one_record 0%nat 1%nat CopyConstructed
           (DataValue (VInt 7) 0 QOpcUa.Good)).
  - exact wf_one_record.
  - by eexists.
  - lia.
  - reflexivity.
Defined.

(** *** Further properties of the record *)

Lemma fresh_block_frame m this d o :
  wf m → o ≠ this →
  observe o (Mem (<[this := fresh (dom (heap m))]> (objects m))
                 (<[fresh (dom (heap m)) := d]> (heap m)))
  = observe o m.
Proof.
  intros Hwf Hne. rewrite !observe_unfold. simpl. rewrite lookup_insert_ne by done.
  destruct (objects m !! o) as [q|] eqn:Ho; simpl; [|done].
  rewrite lookup_insert_ne; [done|]. intros <-.
  apply (wf_alloc _ Hwf) in Ho. rewrite fresh_block_None in Ho. by destruct Ho.
Qed.

Lemma construct_spec m this id :
  wf m → objects m !! this = None →
  ∃ m', construct this id m = Some (tt, m') ∧ wf m' ∧
        observe this m' = Some ([], QOpcUa.Good, default "" id) ∧
        (∀ o, o ≠ this → observe o m' = observe o m).
Proof.
  intros Hwf Ht.
  pose proof (wf_fresh_block m this new_data Hwf Ht) as Hwf1.
  set (x := fresh (dom (heap m))) in *.
  set (m1 := Mem _ _) in Hwf1.
  assert (objects m1 !! this = Some x) as Ho1 by (subst m1; simpl; by rewrite lookup_insert_eq).
  assert (heap m1 !! x = Some (set_ref 1 new_data)) as Hp1
    by (subst m1; simpl; by rewrite lookup_insert_eq).
  destruct (mutate_spec m1 this x _ (set_statusCode QOpcUa.Good) Hwf1 Ho1 Hp1
              (keeps_ref_set_statusCode _))
    as (m2 & Hrun2 & Hwf2 & Hobs2 & _ & Hoth2).
  assert (∀ o, o ≠ this → observe o m1 = observe o m) as Hoth1.
  { intros o Hne. subst m1 x. by apply fresh_block_frame. }
  destruct id as [s|]; simpl.
  - apply observe_live in Hobs2 as (p2 & d2 & Ho2 & Hp2 & Hd2).
    destruct (mutate_spec m2 this p2 d2 (set_nodeId s) Hwf2 Ho2 Hp2 (keeps_ref_set_nodeId _))
      as (m' & Hrun & Hwf' & Hobs & _ & Hoth).
    exists m'. split; [|split; [done|split]].
    + unfold ctor_nodeId. run. fold x. fold m1.
      unfold mbind, M_bind in Hrun2. by rewrite Hrun2.
    + rewrite Hobs. destruct d2. simpl in *. by injection Hd2 as -> -> ->.
    + intros o Hne. by rewrite Hoth, Hoth2, Hoth1.
  - exists m2. split; [|split; [done|split; [done|]]].
    + unfold ctor. by run.
    + intros o Hne. by rewrite Hoth2, Hoth1.
Qed.

(** X1.  Construction: on an object that is not alive yet, either
    constructor returns and leaves a record with status [Good], the given
    node id (the empty string for the default constructor), no samples and
    [count()] 0; no other record changes. *)
Theorem construct_initial_state (m : Memory) (this : nat) (id : option string) :
  wf m → objects m !! this = None →
  ∃ m', construct this id m = Some (tt, m') ∧
        fst <$> get_statusCode this m' = Some QOpcUa.Good ∧
        fst <$> get_nodeId this m' = Some (default "" id) ∧
        result_of this m' = Some [] ∧
        count_of this m' = Some 0 ∧
        (∀ o, o ≠ this → observe o m' = observe o m).
Proof.
  intros Hwf Ht.
  destruct (construct_spec m this id Hwf Ht) as (m' & Hrun & _ & Hobs & Hoth).
  exists m'. split; [done|].
  rewrite count_of_observe, result_of_observe, Hobs. simpl.
  apply observe_live in Hobs as (p & d & Ho & Hp & Hd).
  unfold get_statusCode, get_nodeId, read. run. rewrite Ho. simpl. rewrite Hp. simpl.
  destruct d. simpl in *. by injection Hd as -> -> ->.
Qed.

Lemma get_statusCode_observe o m :
  fst <$> get_statusCode o m = (λ v, v.1.2) <$> observe o m.
Proof.
  unfold get_statusCode, observe, read. run.
  destruct (objects m !! o) as [p|]; simpl; [|done]. by destruct (heap m !! p).
Qed.

Lemma get_nodeId_observe o m :
  fst <$> get_nodeId o m = (λ v, v.2) <$> observe o m.
Proof.
  unfold get_nodeId, observe, read. run.
  destruct (objects m !! o) as [p|]; simpl; [|done]. by destruct (heap m !! p).
Qed.

Lemma mutate_observe m this r c n f :
  wf m → observe this m = Some (r, c, n) → keeps_ref f →
  ∃ m' d, mutate this f m = Some (tt, m') ∧ wf m' ∧ payload d = (r, c, n) ∧
          observe this m' = Some (payload (f d)) ∧
          (∀ o, o ≠ this → observe o m' = observe o m).
Proof.
  intros Hwf Hobs Hf. apply observe_live in Hobs as (p & d & Ho & Hp & Hd).
  destruct (mutate_spec m this p d f Hwf Ho Hp Hf) as (m' & Hrun & Hwf' & Hthis & _ & Hoth).
  by exists m', d.
Qed.

(** X2.  The setters: [setStatusCode] changes the status code and
    [setNodeId] the node id of this record, and [statusCode()] and
    [nodeId()] read the new value back; the samples and the other field
    stay, and so does every other record, one that shares the block
    included. *)
Theorem setters_change_one_field (m : Memory) (this : nat)
    (r : list QOpcUaDataValue) (c : QOpcUa.UaStatusCode) (n : string)
    (c' : QOpcUa.UaStatusCode) (n' : string) :
  wf m → observe this m = Some (r, c, n) →
  (∃ m', setStatusCode this c' m = Some (tt, m') ∧
         fst <$> get_statusCode this m' = Some c' ∧
         observe this m' = Some (r, c', n) ∧
         (∀ o, o ≠ this → observe o m' = observe o m)) ∧
  (∃ m', setNodeId this n' m = Some (tt, m') ∧
         fst <$> get_nodeId this m' = Some n' ∧
         observe this m' = Some (r, c, n') ∧
         (∀ o, o ≠ this → observe o m' = observe o m)).
Proof.
  intros Hwf Hobs. split.
  - destruct (mutate_observe m this r c n _ Hwf Hobs (keeps_ref_set_statusCode c'))
      as (m' & d & Hrun & _ & Hd & Hthis & Hoth).
    exists m'. split; [done|]. rewrite get_statusCode_observe, Hthis.
    destruct d. simpl in *. by injection Hd as -> -> ->.
  - destruct (mutate_observe m this r c n _ Hwf Hobs (keeps_ref_set_nodeId n'))
      as (m' & d & Hrun & _ & Hd & Hthis & Hoth).
    exists m'. split; [done|]. rewrite get_nodeId_observe, Hthis.
    destruct d. simpl in *. by injection Hd as -> -> ->.
Qed.

(** X3.  Assignment: after [this = rhs] the two objects point to the same
    block and [this] shows what [rhs] showed; no other record changes, and
    an assignment to itself changes nothing at all. *)
Theorem assign_shares_and_equals (m : Memory) (this rhs : nat) :
  wf m → is_Some (objects m !! this) → is_Some (objects m !! rhs) →
  ∃ m', assign this rhs m = Some (tt, m') ∧
        fst <$> d_ptr this m' = fst <$> d_ptr rhs m' ∧
        observe this m' = observe rhs m ∧
        (∀ o, o ≠ this → observe o m' = observe o m) ∧
        (this = rhs → m' = m).
Proof.
  intros Hwf Ht Hr.
  destruct (wf_assign m this rhs Hwf Ht Hr) as (m' & Hrun & _ & Hshare & Hobjs & Hoth).
  exists m'. split; [done|].
  destruct (decide (this = rhs)) as [->|Hne].
  - rewrite assign_self in Hrun. injection Hrun as <-. done.
  - assert (objects m' !! this = objects m' !! rhs) as Hsame.
    { rewrite Hshare. symmetry. by apply Hobjs. }
    split; [unfold d_ptr; by rewrite Hsame|].
    split; [|done]. rewrite (observe_same_block m' rhs this Hsame). by apply Hoth.
Qed.

Lemma release_frame m this p d o :
  wf m → objects m !! this = Some p → heap m !! p = Some d → o ≠ this →
  observe o (Mem (delete this (objects m))
                 (if decide (Nat.pred (ref d) = 0%nat) then delete p (heap m)
                  else <[p := set_ref (Nat.pred (ref d)) d]> (heap m)))
  = observe o m.
Proof.
  intros Hwf Ht Hp Hne. rewrite !observe_unfold. simpl.
  rewrite lookup_delete_ne by done.
  destruct (objects m !! o) as [q|] eqn:Ho; simpl; [|done].
  destruct (decide (q = p)) as [->|Hqp].
  - pose proof (wf_ref_shared _ _ _ _ _ Hwf Hne Ho Ht Hp).
    rewrite decide_False by lia. rewrite lookup_insert_eq, Hp. by destruct d.
  - case_decide; [by rewrite lookup_delete_ne | by rewrite lookup_insert_ne].
Qed.

(** X4.  Destruction: the destructor returns, the object is gone (a member
    called on it afterwards is undefined), every other record shows what it
    showed, and the block is freed exactly when no other object points to
    it. *)
Theorem dtor_releases (m : Memory) (this p : nat) :
  wf m → objects m !! this = Some p →
  ∃ m', dtor this m = Some (tt, m') ∧
        objects m' !! this = None ∧
        count this m' = None ∧
        (∀ o, o ≠ this → observe o m' = observe o m) ∧
        (heap m' !! p = None ↔ ∀ o, objects m !! o = Some p → o = this).
Proof.
  intros Hwf Ht. destruct (wf_alloc _ Hwf _ _ Ht) as [d Hp].
  eexists. split; [by apply dtor_spec|]. simpl.
  split; [apply lookup_delete_eq|].
  split; [unfold count, read; run; by rewrite lookup_delete_eq|].
  split; [intros o Hne; by apply release_frame|].
  pose proof (wf_ref_pos _ _ _ _ Hwf Ht Hp) as Hpos.
  split.
  - intros Hfree o Ho. case_decide as Hz.
    + apply (wf_sole_holder m this o p d); auto. lia.
    + by rewrite lookup_insert_eq in Hfree.
  - intros Hsole. rewrite decide_True; [apply lookup_delete_eq|].
    assert (holders p (objects m) = {[this]}) as Hh.
    { apply set_eq. intros o. rewrite elem_of_holders, elem_of_singleton.
      split; [apply Hsole | by intros ->]. }
    rewrite (wf_ref _ Hwf _ _ Hp), Hh, size_singleton. done.
Qed.

Lemma construct_store m this id :
  construct this id m =
    Some (tt, Mem (<[this := fresh (dom (heap m))]> (objects m))
                  (<[fresh (dom (heap m)) := empty_record (default "" id)]> (heap m))).
Proof.
  set (x := fresh (dom (heap m))).
  set (m1 := Mem (<[this := x]> (objects m)) (<[x := set_ref 1 new_data]> (heap m))).
  assert (objects m1 !! this = Some x) as Ho1 by (simpl; by rewrite lookup_insert_eq).
  assert (heap m1 !! x = Some (set_ref 1 new_data)) as Hp1
    by (simpl; by rewrite lookup_insert_eq).
  pose proof (mutate_unshared m1 this x _ (set_statusCode QOpcUa.Good) Ho1 Hp1 eq_refl)
    as Hrun2.
  simpl in Hrun2. rewrite insert_insert_eq in Hrun2.
  destruct id as [s|]; simpl.
  - unfold ctor_nodeId. run. fold x. fold m1.
    unfold mbind, M_bind. rewrite Hrun2.
    rewrite (mutate_unshared _ this x (set_statusCode QOpcUa.Good (set_ref 1 new_data)));
      simpl; [by rewrite insert_insert_eq | by rewrite lookup_insert_eq..| done].
  - unfold ctor. run. fold x. fold m1. by rewrite Hrun2.
Qed.

(** X5.  Constructing an object, by either constructor or as a copy of a
    live record, and destroying it right away gives back the store exactly
    as it was: nothing is leaked and no count is off. *)
Theorem destroy_undoes_construction (m : Memory) (this : nat) :
  wf m → objects m !! this = None →
  (∀ id, (construct this id;; dtor this) m = Some (tt, m)) ∧
  (∀ a, is_Some (objects m !! a) → (ctor_copy this a;; dtor this) m = Some (tt, m)).
Proof.
  intros Hwf Ht. split.
  - intros id. rewrite (bind_run _ _ _ _ _ (construct_store m this id)).
    erewrite dtor_spec; simpl; [|by rewrite lookup_insert_eq..]. simpl.
    rewrite delete_insert_id by done.
    rewrite delete_insert_id by apply fresh_block_None. by destruct m.
  - intros a [p Ha]. destruct (wf_alloc _ Hwf _ _ Ha) as [d Hp].
    pose proof (wf_ref_pos _ _ _ _ Hwf Ha Hp) as Hpos.
    rewrite (bind_run _ _ _ _ _ (ctor_copy_spec m this a p d Ha Hp)).
    erewrite dtor_spec; simpl; [|by rewrite lookup_insert_eq..]. simpl.
    rewrite decide_False by lia. rewrite delete_insert_id by done.
    rewrite insert_insert_eq. rewrite insert_id; [by destruct m|].
    rewrite Hp. by destruct d.
Qed.

(** X9.  A run of [addValue] calls on any live record, shared or not,
    returns; the record then shows the samples it had followed by the new
    ones in the order of the calls, [count()] has grown by their number,
    the status code and node id stay, and no other record changes. *)
Theorem addValues_appends_to_any_record (m : Memory) (this : nat)
    (r : list QOpcUaDataValue) (c : QOpcUa.UaStatusCode) (n : string)
    (values : list QOpcUaDataValue) :
  wf m → observe this m = Some (r, c, n) →
  ∃ m', addValues this values m = Some (tt, m') ∧
        observe this m' = Some (r ++ values, c, n) ∧
        count_of this m' = Some (Z.of_nat (length r) + Z.of_nat (length values)) ∧
        (∀ o, o ≠ this → observe o m' = observe o m).
Proof.
  revert m r. induction values as [|v vs IH]; intros m r Hwf Hobs.
  - exists m. split; [done|]. rewrite count_of_observe, app_nil_r, Hobs. simpl.
    repeat split; try done. f_equal. lia.
  - destruct (addValue_spec m this r c n v Hwf Hobs) as (m1 & Hrun1 & Hwf1 & Hobs1 & _ & Hoth1).
    destruct (IH m1 (r ++ [v]) Hwf1 Hobs1) as (m' & Hrun & Hobs' & Hcount & Hoth).
    exists m'. split; [simpl; by rewrite (bind_run _ _ _ _ _ Hrun1)|].
    rewrite <- app_assoc in Hobs'. split; [done|]. split.
    + rewrite Hcount, length_app. simpl. f_equal. lia.
    + intros o Hne. by rewrite Hoth, Hoth1.
Qed.

Lemma detach_spec m this p d :
  wf m → objects m !! this = Some p → heap m !! p = Some d →
  ∃ m1 p1 d1, detach this m = Some (tt, m1) ∧
    objects m1 !! this = Some p1 ∧ heap m1 !! p1 = Some d1 ∧
    ref d1 = 1%nat ∧ payload d1 = payload d ∧
    (∀ o, o ≠ this → objects m1 !! o = objects m !! o).
Proof.
  intros Hwf Ho Hp. pose proof (wf_ref_pos _ _ _ _ Hwf Ho Hp) as Hpos.
  destruct (decide (ref d = 1%nat)) as [Hone|Hmany].
  - exists m, p, d. by rewrite (detach_unshared m this p d).
  - assert (2 ≤ ref d)%nat as Htwo by lia.
    pose proof (detach_shared m this p d Ho Hp Htwo) as Hds. simpl in Hds.
    eexists _, (fresh (dom (heap m))), (set_ref 1 d).
    split; [exact Hds|]. simpl.
    assert (p ≠ fresh (dom (heap m))) as Hne.
    { intros Heq. pose proof (fresh_block_None m) as Hx. rewrite <- Heq in Hx. congruence. }
    rewrite lookup_insert_eq, lookup_insert_ne, lookup_insert_eq by done.
    split; [done|]. split; [done|]. split; [done|]. split; [by destruct d|].
    intros o ?. by rewrite lookup_insert_ne.
Qed.

(** X7.  Filling in place: what is written to the list through the
    reference [resultRef()] has just returned is what [result()] and
    [count()] of this record show afterwards; the status code and the node
    id stay, and no other record changes, one that shared the block
    included. *)
Theorem resultRef_writes_in_place (m : Memory) (this : nat)
    (r : list QOpcUaDataValue) (c : QOpcUa.UaStatusCode) (n : string)
    (f : list QOpcUaDataValue → list QOpcUaDataValue) :
  wf m → observe this m = Some (r, c, n) →
  ∃ m', (p ← resultRef this; write_ref p f) m = Some (tt, m') ∧
        result_of this m' = Some (f r) ∧
        count_of this m' = Some (Z.of_nat (length (f r))) ∧
        observe this m' = Some (f r, c, n) ∧
        (∀ o, o ≠ this → observe o m' = observe o m).
Proof.
  intros Hwf Hobs.
  assert (keeps_ref (λ d, set_result (f (result d)) d)) as Hf by (by intros k []).
  destruct (mutate_observe m this r c n _ Hwf Hobs Hf) as (m' & d & Hrun & _ & Hd & Hthis & Hoth).
  exists m'. split.
  - rewrite <- Hrun. unfold resultRef, write_ref, mutate. run.
    destruct (detach this m) as [[[] m1]|]; simpl; [|done].
    by destruct (objects m1 !! this).
  - rewrite count_of_observe, result_of_observe, Hthis.
    destruct d. simpl in *. by injection Hd as -> -> ->.
Qed.

(** X8.  A reference from [resultRef()] that is kept while the record is
    copied designates the block the copy shares: a write through it shows
    in the copy as well as in the original. *)
Theorem resultRef_held_across_copy (m : Memory) (a b : nat)
    (r : list QOpcUaDataValue) (c : QOpcUa.UaStatusCode) (n : string)
    (f : list QOpcUaDataValue → list QOpcUaDataValue) :
  wf m → observe a m = Some (r, c, n) → objects m !! b = None →
  ∃ m', (p ← resultRef a; ctor_copy b a;; write_ref p f) m = Some (tt, m') ∧
        result_of a m' = Some (f r) ∧
        result_of b m' = Some (f r).
Proof.
  intros Hwf Hobs Hb. apply observe_live in Hobs as (p & d & Ho & Hp & Hd).
  assert (a ≠ b) as Hne by (intros ->; congruence).
  destruct (detach_spec m a p d Hwf Ho Hp)
    as (m1 & p1 & d1 & Hdet & Ho1 & Hp1 & Hr1 & Hd1 & Hoth).
  eexists. split.
  - assert (resultRef a m = Some (p1, m1)) as Href.
    { unfold resultRef. rewrite (bind_run _ _ _ _ _ Hdet). unfold d_ptr. by rewrite Ho1. }
    rewrite (bind_run _ _ _ _ _ Href).
    rewrite (bind_run _ _ _ _ _ (ctor_copy_spec m1 b a p1 d1 Ho1 Hp1)).
    unfold write_ref. run. rewrite lookup_insert_eq. simpl. reflexivity.
  - rewrite !result_of_observe, !observe_unfold. simpl.
    rewrite lookup_insert_eq, lookup_insert_ne, Ho1 by done. simpl.
    rewrite lookup_insert_eq. simpl.
    rewrite Hd in Hd1. destruct d1. simpl in *. by injection Hd1 as -> -> ->.
Qed.

Lemma refs_pos_insert h p d :
  refs_pos h → (1 ≤ ref d)%nat → refs_pos (<[p := d]> h).
Proof.
  intros Hh Hd q dq Hq. destruct (decide (q = p)) as [->|].
  - rewrite lookup_insert_eq in Hq. by injection Hq as <-.
  - rewrite lookup_insert_ne in Hq by done. by apply (Hh q).
Qed.

Lemma refs_pos_delete h p : refs_pos h → refs_pos (delete p h).
Proof.
  intros Hh q dq Hq. apply lookup_delete_Some in Hq as [_ Hq]. by apply (Hh q).
Qed.

Lemma refs_pos_release h p d :
  refs_pos h →
  refs_pos (if decide (Nat.pred (ref d) = 0%nat) then delete p h
            else <[p := set_ref (Nat.pred (ref d)) d]> h).
Proof.
  intros Hh. case_decide; [by apply refs_pos_delete|].
  apply refs_pos_insert; [done|]. simpl. lia.
Qed.

Lemma refs_pos_mutate m m' this f :
  wf m → refs_pos (heap m) → is_Some (objects m !! this) → keeps_ref f →
  mutate this f m = Some (tt, m') → refs_pos (heap m').
Proof.
  intros Hwf Hpos [p Ho] Hf. destruct (wf_alloc _ Hwf _ _ Ho) as [d Hp].
  pose proof (Hpos _ _ Hp) as Hd.
  destruct (decide (ref d = 1%nat)) as [Hone|Hmany].
  - rewrite (mutate_unshared m this p d f Ho Hp Hone). intros [= <-]. simpl.
    apply refs_pos_insert; [done|]. by rewrite keeps_ref_ref.
  - assert (2 ≤ ref d)%nat as Htwo by lia.
    pose proof (mutate_shared m this p d f Ho Hp Htwo) as Hrun. simpl in Hrun.
    rewrite Hrun. intros [= <-]. simpl.
    apply refs_pos_insert; [|by rewrite keeps_ref_ref].
    apply refs_pos_insert; [done|]. simpl. lia.
Qed.

Lemma refs_pos_call c m m' :
  wf m → refs_pos (heap m) → legal c m → call c m = Some (tt, m') →
  refs_pos (heap m').
Proof.
  intros Hwf Hpos Hlegal. destruct c; simpl in *.
  - rewrite construct_store. intros [= <-]. simpl. by apply refs_pos_insert.
  - destruct Hlegal as [_ [p Ho]]. destruct (wf_alloc _ Hwf _ _ Ho) as [d Hp].
    rewrite (ctor_copy_spec m this other p d Ho Hp). intros [= <-]. simpl.
    apply refs_pos_insert; [done|]. simpl. lia.
  - destruct Hlegal as [[d Ht] [o Hr]].
    destruct (decide (this = rhs)) as [->|Hne].
    { rewrite assign_self. by intros [= <-]. }
    destruct (decide (o = d)) as [->|Hod].
    { rewrite (assign_same_block m this rhs d Hr Ht). by intros [= <-]. }
    destruct (wf_alloc _ Hwf _ _ Hr) as [bo Ho].
    destruct (wf_alloc _ Hwf _ _ Ht) as [bd Hd].
    rewrite (assign_other_block m this rhs o d bo bd Hne Hr Ht Hod Ho Hd).
    intros [= <-]. simpl. apply refs_pos_release.
    apply refs_pos_insert; [done|]. simpl. lia.
  - destruct Hlegal as [p Ho]. destruct (wf_alloc _ Hwf _ _ Ho) as [d Hp].
    rewrite (dtor_spec m this p d Ho Hp). intros [= <-]. simpl.
    by apply refs_pos_release.
  - apply refs_pos_mutate; auto using keeps_ref_append.
  - apply refs_pos_mutate; auto using keeps_ref_set_statusCode.
  - apply refs_pos_mutate; auto using keeps_ref_set_nodeId.
Qed.

Lemma reachable_refs_pos m : reachable m → refs_pos (heap m).
Proof.
  induction 1 as [|m m' c Hreach IH Hlegal Hrun]; [by intros p d Hp|].
  apply (refs_pos_call c m m'); auto using reachable_wf.
Qed.

(** X6.  In every store a program reaches from the empty one by legal
    calls, no object points to a freed block, no block is left without an
    object that points to it, the count of each block is the number of
    objects that point to it, and every legal call returns (in a reachable
    store again). *)
Theorem reachable_stores_are_sound (m : Memory) :
  reachable m →
  (∀ o p, objects m !! o = Some p → is_Some (heap m !! p)) ∧
  no_garbage m ∧
  (∀ p d, heap m !! p = Some d → ref d = size (holders p (objects m))) ∧
  (∀ c, legal c m → ∃ m', call c m = Some (tt, m') ∧ reachable m').
Proof.
  intros Hreach. pose proof (reachable_wf m Hreach) as Hwf.
  split; [apply (wf_alloc _ Hwf)|]. split; [|split; [apply (wf_ref _ Hwf)|]].
  - intros p [d Hp]. pose proof (reachable_refs_pos m Hreach p d Hp) as Hpos.
    rewrite (wf_ref _ Hwf _ _ Hp) in Hpos.
    destruct (set_choose_or_empty (holders p (objects m))) as [[o Ho]|Hempty].
    + exists o. by apply elem_of_holders.
    + apply size_empty_iff in Hempty. lia.
  - intros c Hlegal. destruct (wf_call c m Hwf Hlegal) as (m' & Hrun & _).
    exists m'. split; [done|]. by apply (reachable_call m m' c).
Qed.

Lemma reachable_two_records : reachable two_records.
Proof.
  eapply (reachable_call _ _ (CallConstruct 1 (Some "ns=2;s=Temperature"))).
  - eapply (reachable_call _ _ (CallAddValue 0 (sample 1))).
    + eapply (reachable_call _ _ (CallConstruct 0 None)).
      * apply reachable_empty.
      * reflexivity.
      * by vm_compute.
    + by exists 0%nat.
    + by vm_compute.
  - reflexivity.
  - by vm_compute.
Qed.

(** [construct_initial_state] at a concrete input. *)
Lemma construct_initial_state_witness :
  ∃ m', construct 0%nat (Some "ns=2;s=Temperature") (Mem ∅ ∅) = Some (tt, m') ∧
        fst <$> get_nodeId 0%nat m' = Some "ns=2;s=Temperature" ∧
        count_of 0%nat m' = Some 0.
Proof.
  destruct (construct_initial_state (Mem ∅ ∅) 0%nat (Some "ns=2;s=Temperature")
              wf_empty eq_refl) as (m' & Hrun & _ & Hid & _ & Hcount & _).
  by exists m'.
Defined.

(** [setters_change_one_field] at a concrete input. *)
Lemma setters_change_one_field_witness :
  ∃ m', setStatusCode 0%nat QOpcUa.BadTimeout one_record = Some (tt, m') ∧
        observe 0%nat m' = Some ([], QOpcUa.BadTimeout, "").
Proof.
  destruct (setters_change_one_field one_record 0%nat [] QOpcUa.Good "" QOpcUa.BadTimeout
              "ns=2;s=Temperature" wf_one_record eq_refl)
    as [(m' & Hrun & _ & Hobs & _) _].
  by exists m'.
Defined.

(** [assign_shares_and_equals] at a concrete input. *)
Lemma assign_shares_and_equals_witness :
  ∃ m', assign 1%nat 0%nat two_records = Some (tt, m') ∧
        observe 1%nat m' = Some ([sample 1], QOpcUa.Good, "") ∧
        observe 0%nat m' = Some ([sample 1], QOpcUa.Good, "").
Proof.
  destruct (assign_shares_and_equals two_records 1%nat 0%nat
              (reachable_wf _ reachable_two_records)
              (ex_intro _ 1%nat eq_refl) (ex_intro _ 0%nat eq_refl))
    as (m' & Hrun & _ & Hobs & Hoth & _).
  exists m'. split; [done|]. split; [done|]. by rewrite Hoth.
Defined.

(** [dtor_releases] at a concrete input. *)
Lemma dtor_releases_witness :
  ∃ m', dtor 0%nat one_record = Some (tt, m') ∧ objects m' !! 0%nat = None ∧
        count 0%nat m' = None.
Proof.
  destruct (dtor_releases one_record 0%nat 0%nat wf_one_record eq_refl)
    as (m' & Hrun & Hgone & Hcount & _).
  by exists m'.
Defined.

(** [destroy_undoes_construction] at a concrete input. *)
Lemma destroy_undoes_construction_witness :
  (construct 1%nat None;; dtor 1%nat) one_record = Some (tt, one_record) ∧
  (ctor_copy 1%nat 0%nat;; dtor 1%nat) one_record = Some (tt, one_record).
Proof.
  destruct (destroy_undoes_construction one_record 1%nat wf_one_record eq_refl)
    as [Hnew Hcopy].
  split; [apply Hnew | apply Hcopy; by exists 0%nat].
Defined.

Lemma reachable_one_record : reachable one_record.
Proof.
  apply (reachable_call (Mem ∅ ∅) one_record (CallConstruct 0 None));
    [apply reachable_empty | reflexivity | by vm_compute].
Qed.

(** [reachable_stores_are_sound] at a concrete input. *)
Lemma reachable_stores_are_sound_witness :
  no_garbage one_record ∧
  ∃ m', call (CallCopy 1 0) one_record = Some (tt, m') ∧ reachable m'.
Proof.
  destruct (reachable_stores_are_sound one_record reachable_one_record)
    as (_ & Hng & _ & Hcall).
  split; [exact Hng|]. apply Hcall. split; [reflexivity | by exists 0%nat].
Defined.

(** [resultRef_writes_in_place] at a concrete input. *)
Lemma resultRef_writes_in_place_witness :
  ∃ m', (p ← resultRef 0%nat; write_ref p (λ l, l ++ [sample 1; sample 2])) one_record
          = Some (tt, m') ∧
        result_of 0%nat m' = Some [sample 1; sample 2] ∧
        count_of 0%nat m' = Some 2.
Proof.
  destruct (resultRef_writes_in_place one_record 0%nat [] QOpcUa.Good ""
              (λ l, l ++ [sample 1; sample 2]) wf_one_record eq_refl)
    as (m' & Hrun & Hres & Hcount & _).
  by exists m'.
Defined.

(** [resultRef_held_across_copy] at a concrete input. *)
Lemma resultRef_held_across_copy_witness :
  ∃ m', (p ← resultRef 0%nat; ctor_copy 1%nat 0%nat;;
         write_ref p (λ l, l ++ [sample 1])) one_record = Some (tt, m') ∧
        result_of 0%nat m' = Some [sample 1] ∧
        result_of 1%nat m' = Some [sample 1].
Proof.
  destruct (resultRef_held_across_copy one_record 0%nat 1%nat [] QOpcUa.Good ""
              (λ l, l ++ [sample 1]) wf_one_record eq_refl eq_refl)
    as (m' & Hrun & Ha & Hb).
  by exists m'.
Defined.

(** [addValues_appends_to_any_record] at a concrete input. *)
Lemma addValues_appends_to_any_record_witness :
  ∃ m', addValues 0%nat [sample 1; sample 2; sample 3] one_record = Some (tt, m') ∧
        observe 0%nat m' = Some ([sample 1; sample 2; sample 3], QOpcUa.Good, "") ∧
        count_of 0%nat m' = Some 3.
Proof.
  destruct (addValues_appends_to_any_record one_record 0%nat [] QOpcUa.Good ""
              [sample 1; sample 2; sample 3] wf_one_record eq_refl)
    as (m' & Hrun & Hobs & Hcount & _).
  by exists m'.
Defined.

End HistoryDataSpec.

(** ** Properties of [OpcUaMethodNode] *)

Module MethodNodeSpec.

Import MethodNode.


Ltac run :=
  repeat progress
    (unfold mbind, mret, W_bind, W_ret, get_self, modify_self, record, deref,
       new_object, modify_connections, qCWarning, emit, setStatus,
       QOpcUaNode_callMethod; simpl).

(** The loop that fills [arguments] is a map over the input arguments. *)
Lemma marshal_foldl acc inputs :
  foldl (λ arguments item, arguments ++ [(value item, type item)]) acc inputs
  = acc ++ ((λ item, (value item, type item)) <$> inputs).
Proof.
  revert acc. induction inputs as [|item inputs IH]; intros acc; simpl.
  - by rewrite app_nil_r.
  - rewrite IH. by rewrite <- app_assoc.
Qed.

Lemma marshal_map inputs :
  marshal inputs = (λ item, (value item, type item)) <$> inputs.
Proof. unfold marshal. by rewrite marshal_foldl. Qed.

Lemma callMethod_unfold w :
  callMethod w =
    match objectNode_handle w with
    | None =>
        Some (tt, MkWorld (set_status InvalidObjectNode "" (self w)) (connections w)
                    (allocated w)
                    (events w ++ [Warning (match m_objectNode (self w) with
                                           | Some _ => "Invalid object node"
                                           | None => "No object node"
                                           end)]))
    | Some target =>
        match m_node (self w) with
        | None =>
            Some (tt, MkWorld (set_status InvalidNodeId "" (self w)) (connections w)
                        (allocated w) (events w ++ [Warning "Invalid node Id"]))
        | Some method =>
            Some (tt, MkWorld (self w) (connections w) (allocated w)
                        (events w ++ [RemoteCall target (nodeId method)
                                        (marshal (m_inputArguments (self w)))]))
        end
    end.
Proof.
  unfold callMethod, objectNode_handle. run.
  destruct (m_objectNode (self w)) as [o|]; simpl; [|done].
  destruct (node o); simpl; [|done].
  by destruct (m_node (self w)).
Qed.

(** C1, as the code has it.  [callMethod()] returns in every state.  When
    the object node is missing or not resolved it records the status
    [InvalidObjectNode] on the node; when the object node is resolved and
    the method node is not, it records [InvalidNodeId].  In both cases it
    logs a warning, issues no remote call, and leaves [resultStatusCode]
    and [outputArguments] as they were. *)
Theorem callMethod_precondition_failures (w : World) :
  ∃ w', callMethod w = Some (tt, w') ∧
    (objectNode_handle w = None →
       m_status (self w') = InvalidObjectNode ∧
       filter is_RemoteCall (events w') = filter is_RemoteCall (events w) ∧
       m_resultStatusCode (self w') = m_resultStatusCode (self w) ∧
       m_outputArguments (self w') = m_outputArguments (self w)) ∧
    (is_Some (objectNode_handle w) → m_node (self w) = None →
       m_status (self w') = InvalidNodeId ∧
       filter is_RemoteCall (events w') = filter is_RemoteCall (events w) ∧
       m_resultStatusCode (self w') = m_resultStatusCode (self w) ∧
       m_outputArguments (self w') = m_outputArguments (self w)).
Proof.
  rewrite callMethod_unfold.
  destruct (objectNode_handle w) as [target|] eqn:Hobj.
  - destruct (m_node (self w)) as [method|] eqn:Hm.
    + eexists. split; [done|]. split; [done|]. intros _ ?. done.
    + eexists. split; [done|]. split; [done|]. intros _ _. simpl.
      rewrite filter_app. simpl. by rewrite app_nil_r.
  - eexists. split; [done|]. split.
    + intros _. simpl. rewrite filter_app. simpl. by rewrite app_nil_r.
    + intros [? ?]. done.
Qed.

(** C1 as stated fails: after [callMethod()] without an object node,
    [resultStatusCode] is what it was before, [Good] in one state and
    [BadTimeout] in another, while the status of the node is
    [InvalidObjectNode] in both. *)
Lemma callMethod_resultStatusCode_counterexample :
  ∃ w1 w2,
    objectNode_handle (unset QOpcUa.Good) = None ∧
    objectNode_handle (unset QOpcUa.BadTimeout) = None ∧
    callMethod (unset QOpcUa.Good) = Some (tt, w1) ∧
    callMethod (unset QOpcUa.BadTimeout) = Some (tt, w2) ∧
    m_status (self w1) = InvalidObjectNode ∧
    m_status (self w2) = InvalidObjectNode ∧
    m_resultStatusCode (self w1) = QOpcUa.Good ∧
    m_resultStatusCode (self w2) = QOpcUa.BadTimeout ∧
    m_resultStatusCode (self w1) ≠ m_resultStatusCode (self w2).
Proof. do 2 eexists. repeat split; try reflexivity. simpl. discriminate. Qed.

Lemma handleMethodCallFinished_unfold id result code w :
  handleMethodCallFinished id result code w =
    let outputs := if canConvert_QVariantList result
                   then value_QVariantList result else [result] in
    Some (tt, MkWorld (set_outputArguments outputs (set_resultStatusCode code (self w)))
                (connections w) (allocated w)
                (events w ++ [Emitted resultStatusCodeChanged (Some code) (code, outputs);
                              Emitted outputArgumentsChanged None (code, outputs)])).
Proof.
  unfold handleMethodCallFinished. run.
  destruct (canConvert_QVariantList result); run;
    by rewrite <- (app_assoc (events w)).
Qed.

(** C2.  The completion handler returns for every completion event, and
    afterwards [resultStatusCode] is the delivered status code, whatever
    it was, and [outputArguments] is the list the result converts to (the
    delivered list itself when it is a list of variants, the empty one
    included), or the one element list of the result when it does not
    convert. *)
Theorem handleMethodCallFinished_replaces (w : World) (methodNodeId : string)
    (result : QVariant) (statusCode : QOpcUa.UaStatusCode) :
  ∃ w', handleMethodCallFinished methodNodeId result statusCode w = Some (tt, w') ∧
    m_resultStatusCode (self w') = statusCode ∧
    m_outputArguments (self w') =
      (if canConvert_QVariantList result then value_QVariantList result else [result]) ∧
    (∀ l, result = VList l → m_outputArguments (self w') = l) ∧
    (canConvert_QVariantList result = false →
       m_outputArguments (self w') = [result] ∧ length (m_outputArguments (self w')) = 1%nat).
Proof.
  rewrite handleMethodCallFinished_unfold. eexists. split; [done|]. simpl.
  split; [done|]. split; [done|]. split.
  - by intros l ->.
  - by intros ->.
Qed.

(** C3 fails on the code.  A completion event of a failed call carries no
    result (an invalid [QVariant]); whatever the status code, the handler
    leaves [outputArguments] with one element, the invalid variant, and
    not empty. *)
Theorem failed_call_outputArguments_not_empty (w : World) (methodNodeId : string)
    (statusCode : QOpcUa.UaStatusCode) :
  ∃ w', handleMethodCallFinished methodNodeId Invalid statusCode w = Some (tt, w') ∧
    m_resultStatusCode (self w') = statusCode ∧
    m_outputArguments (self w') = [Invalid] ∧
    m_outputArguments (self w') ≠ [].
Proof. rewrite handleMethodCallFinished_unfold. by eexists. Qed.

(** C6.  For every completion event the handler emits two notifications
    and nothing else, [resultStatusCodeChanged] first and
    [outputArgumentsChanged] second, both after the two members were
    written: the status code is the delivered one and the output arguments
    are the list made from the delivered result, in the members when the
    handler returns and in what a slot run by either notification reads. *)
Theorem completion_notifications_in_order (w : World) (methodNodeId : string)
    (result : QVariant) (statusCode : QOpcUa.UaStatusCode) :
  ∃ w', handleMethodCallFinished methodNodeId result statusCode w = Some (tt, w') ∧
    let outputs := if canConvert_QVariantList result
                   then value_QVariantList result else [result] in
    m_resultStatusCode (self w') = statusCode ∧
    m_outputArguments (self w') = outputs ∧
    events w' = events w ++
                [Emitted resultStatusCodeChanged (Some statusCode) (statusCode, outputs);
                 Emitted outputArgumentsChanged None (statusCode, outputs)].
Proof. rewrite handleMethodCallFinished_unfold. by eexists. Qed.

(** C7.  With a resolved object node and a resolved method node,
    [callMethod()] returns, and all it does is one remote call: on the
    handle of the object node, for the node id of the method node, with
    the pair of value and type of input argument [i] at position [i].  The
    members, [resultStatusCode] and [outputArguments] among them, are
    untouched. *)
Theorem callMethod_submits_in_order (w : World) (target method : QOpcUaNode) :
  objectNode_handle w = Some target → m_node (self w) = Some method →
  ∃ arguments,
    callMethod w = Some (tt, MkWorld (self w) (connections w) (allocated w)
                               (events w ++ [RemoteCall target (nodeId method) arguments])) ∧
    length arguments = length (m_inputArguments (self w)) ∧
    (∀ i, arguments !! i =
          (λ item, (value item, type item)) <$> m_inputArguments (self w) !! i).
Proof.
  intros Hobj Hm. rewrite callMethod_unfold, Hobj, Hm.
  eexists. split; [done|]. rewrite marshal_map. split.
  - by rewrite length_fmap.
  - intros i. by rewrite list_lookup_fmap.
Qed.

(** [callMethod_submits_in_order] on [ready]. *)
Lemma callMethod_submits_in_order_witness :
  ∃ arguments,
    callMethod ready =
      Some (tt, MkWorld (self ready) (connections ready) (allocated ready)
                  (events ready ++
                   [RemoteCall (Handle 9 "ns=2;s=Example.Object" (VNodeClass QOpcUa.Object))
                      "ns=2;s=Example.Method" arguments])) ∧
    length arguments = length (m_inputArguments (self ready)) ∧
    (∀ i, arguments !! i =
          (λ item, (value item, type item)) <$> m_inputArguments (self ready) !! i).
Proof.
  apply (callMethod_submits_in_order ready
           (Handle 9 "ns=2;s=Example.Object" (VNodeClass QOpcUa.Object))
           (Handle 8 "ns=2;s=Example.Method" (VNodeClass QOpcUa.Method)));
    reflexivity.
Defined.

Lemma checkValidity_unfold w :
  checkValidity w =
    match m_node (self w) with
    | None => None
    | Some method =>
        if decide (class_of method ≠ QOpcUa.Method)
        then Some (false, MkWorld (set_status InvalidNodeType "" (self w))
                            (connections w) (allocated w) (events w))
        else
          match objectNode_handle w with
          | None => Some (false, MkWorld (set_status InvalidObjectNode "" (self w))
                                   (connections w) (allocated w) (events w))
          | Some target =>
              if decide (class_of target ≠ QOpcUa.Object ∧
                         class_of target ≠ QOpcUa.ObjectType)
              then Some (false, MkWorld (set_status InvalidObjectNode detail_message (self w))
                                  (connections w) (allocated w) (events w))
              else Some (true, w)
          end
    end.
Proof.
  unfold checkValidity, objectNode_handle, class_of. run.
  destruct (m_node (self w)) as [method|]; simpl; [|done].
  case_decide; [done|].
  destruct (m_objectNode (self w)) as [o|]; simpl; [|done].
  destruct (node o) as [target|]; simpl; [|done].
  case_decide; [done|]. by destruct w.
Qed.

(** C5.  With the method node set, [checkValidity()] returns, issues no
    remote call (it leaves the events and the connections alone), and its
    verdict follows the three checks in order: [false] with
    [InvalidNodeType] when the class of the method node is not [Method];
    else [false] with [InvalidObjectNode] when the object node is missing
    or not resolved; else [false] with [InvalidObjectNode] and the detail
    message, which is not empty, when the class of the object node is
    neither [Object] nor [ObjectType]; else [true], with nothing changed. *)
Theorem checkValidity_verdicts (w : World) (method : QOpcUaNode) :
  m_node (self w) = Some method →
  ∃ ok w', checkValidity w = Some (ok, w') ∧
    events w' = events w ∧ connections w' = connections w ∧
    (class_of method ≠ QOpcUa.Method →
       ok = false ∧ m_status (self w') = InvalidNodeType) ∧
    (class_of method = QOpcUa.Method → objectNode_handle w = None →
       ok = false ∧ m_status (self w') = InvalidObjectNode) ∧
    (∀ target, class_of method = QOpcUa.Method → objectNode_handle w = Some target →
       class_of target ≠ QOpcUa.Object → class_of target ≠ QOpcUa.ObjectType →
       ok = false ∧ m_status (self w') = InvalidObjectNode ∧
       m_errorMessage (self w') = detail_message ∧ m_errorMessage (self w') ≠ "") ∧
    (∀ target, class_of method = QOpcUa.Method → objectNode_handle w = Some target →
       class_of target = QOpcUa.Object ∨ class_of target = QOpcUa.ObjectType →
       ok = true ∧ w' = w) ∧
    (ok = true ↔
       class_of method = QOpcUa.Method ∧
       ∃ target, objectNode_handle w = Some target ∧
                 (class_of target = QOpcUa.Object ∨ class_of target = QOpcUa.ObjectType)).
Proof.
  intros Hm. rewrite checkValidity_unfold, Hm.
  destruct (decide (class_of method ≠ QOpcUa.Method)) as [Hc|Hc].
  { do 2 eexists. split; [done|]. simpl. repeat split; try done; naive_solver. }
  apply dec_stable in Hc.
  destruct (objectNode_handle w) as [target|] eqn:Hobj.
  2:{ do 2 eexists. split; [done|]. simpl. repeat split; try done; naive_solver. }
  destruct (decide (class_of target ≠ QOpcUa.Object ∧ class_of target ≠ QOpcUa.ObjectType))
    as [[H1 H2]|Hn].
  { do 2 eexists. split; [done|]. simpl. repeat split; try done; naive_solver. }
  assert (class_of target = QOpcUa.Object ∨ class_of target = QOpcUa.ObjectType) as Hok.
  { destruct (decide (class_of target = QOpcUa.Object)); [by left|].
    destruct (decide (class_of target = QOpcUa.ObjectType)); [by right|]. naive_solver. }
  do 2 eexists. split; [done|]. repeat split; try done; naive_solver.
Qed.

(** [checkValidity_verdicts] on [variable_as_object]: the object node is a
    variable, so the third check fails and leaves the detail message. *)
Lemma checkValidity_verdicts_witness :
  ∃ w', checkValidity variable_as_object = Some (false, w') ∧
        events w' = [] ∧
        m_status (self w') = InvalidObjectNode ∧
        m_errorMessage (self w') = detail_message.
Proof.
  destruct (checkValidity_verdicts variable_as_object
              (Handle 8 "ns=2;s=Example.Method" (VNodeClass QOpcUa.Method)) eq_refl)
    as (ok & w' & Hrun & Hev & _ & _ & _ & Hclass & _).
  destruct (Hclass (Handle 9 "ns=2;s=Example.Variable" (VNodeClass QOpcUa.Variable_)))
    as (-> & Hst & Hmsg & _); [reflexivity | reflexivity | discriminate | discriminate |].
  exists w'. by repeat split.
Defined.

(** C10.  [checkValidity()] is undefined exactly when the method node is
    not set: its first statement calls through [m_node].  [callMethod()]
    returns in every state; with the object node resolved and the method
    node not set it reports [InvalidNodeId]. *)
Theorem checkValidity_needs_method_node (w : World) :
  (checkValidity w = None ↔ m_node (self w) = None) ∧
  (is_Some (checkValidity w) ↔ is_Some (m_node (self w))) ∧
  is_Some (callMethod w) ∧
  (m_node (self w) = None → is_Some (objectNode_handle w) →
     ∃ w', callMethod w = Some (tt, w') ∧ m_status (self w') = InvalidNodeId).
Proof.
  rewrite checkValidity_unfold, callMethod_unfold.
  destruct (m_node (self w)) as [method|] eqn:Hm.
  - split; [|split; [|split]].
    + split; [|done]. repeat case_match; done.
    + split; [by eexists|]. intros _. repeat case_match; by eexists.
    + repeat case_match; by eexists.
    + done.
  - split; [done|]. split; [split; intros [? ?]; done|].
    split; [case_match; by eexists|].
    intros _ [target ->]. by eexists.
Qed.

(** *** Replacing the object node id *)

(** [setObjectNodeId] keeps every connection whose sender is not the method
    node itself: its [disconnect] only drops connections of the method
    node's own signals. *)
Lemma disconnect_keeps from r c w w' :
  sender c ≠ from → c ∈ connections w →
  disconnect from r w = Some (tt, w') → c ∈ connections w'.
Proof.
  intros Hs Hin [= <-]. simpl. apply list_elem_of_filter. split; [|done].
  intros [? _]. done.
Qed.

Lemma handleObjectNodeIdChanged_unfold w :
  handleObjectNodeIdChanged w =
    let me := set_objectNode
                (Some (Node (allocated w) (m_objectNodeId (self w)) None)) (self w) in
    Some (tt, MkWorld me
                (connections w ++
                 [Connect (ResolutionObject (allocated w)) readyToUseChanged
                    This slot_readyToUse])
                (S (allocated w))
                (events w ++
                 [deleteLater_event (m_objectNode (self w));
                  Emitted objectNodeIdChanged None
                    (m_resultStatusCode (self w), m_outputArguments (self w))])).
Proof.
  unfold handleObjectNodeIdChanged, deleteLater, connect. run.
  destruct (m_objectNode (self w)); run; by rewrite <- (app_assoc (events w)).
Qed.

Lemma setObjectNodeId_keeps_old_connection (w w' : World) (old new : nat) :
  m_objectNodeId (self w) = Some old →
  Connect (NodeIdObject old) nodeChanged This slot_handleObjectNodeIdChanged
    ∈ connections w →
  setObjectNodeId new w = Some (tt, w') →
  Connect (NodeIdObject old) nodeChanged This slot_handleObjectNodeIdChanged
    ∈ connections w'.
Proof.
  intros Hold Hin. unfold setObjectNodeId. unfold mbind at 1, W_bind at 1, get_self.
  rewrite Hold. unfold mbind at 1, W_bind at 1.
  destruct (disconnect This (NodeIdObject old) w) as [[[] w1]|] eqn:Hd; [|done].
  assert (Connect (NodeIdObject old) nodeChanged This slot_handleObjectNodeIdChanged
            ∈ connections w1) as Hin1.
  { apply (disconnect_keeps This (NodeIdObject old) _ w w1); [discriminate|done..]. }
  unfold connect. run. rewrite handleObjectNodeIdChanged_unfold. simpl.
  intros [= <-]. simpl. rewrite !elem_of_app. by do 2 left.
Qed.

Lemma on_readyToUseChanged_unfold w :
  on_readyToUseChanged w =
    match m_objectNode (self w) with
    | None => None
    | Some o =>
        match node o with
        | None =>
            Some (tt, MkWorld (self w) (connections w) (allocated w)
                        (events w ++ [Warning "QObject::connect: invalid nullptr parameter"]))
        | Some h =>
            Some (tt, MkWorld (self w)
                        (if decide (completion_connection h ∈ connections w)
                         then connections w
                         else connections w ++ [completion_connection h])
                        (allocated w) (events w))
        end
    end.
Proof.
  unfold on_readyToUseChanged, connect_unique. run.
  destruct (m_objectNode (self w)) as [o|]; simpl; [|done].
  by destruct (node o).
Qed.

(** The guarded subscription: a second readiness notification of the same
    resolution adds no connection, and the connection to the completion
    signal of a handle is there at most once if it was so before. *)
Lemma on_readyToUseChanged_once w w1 w2 :
  on_readyToUseChanged w = Some (tt, w1) →
  on_readyToUseChanged w1 = Some (tt, w2) →
  connections w2 = connections w1.
Proof.
  rewrite !on_readyToUseChanged_unfold.
  destruct (m_objectNode (self w)) as [o|] eqn:Ho; [|done].
  destruct (node o) as [h|] eqn:Hh.
  - intros [= <-]. simpl. rewrite Ho, Hh. intros [= <-]. simpl.
    rewrite (decide_True (P := completion_connection h ∈ _)); [done|].
    case_decide; [done|]. apply elem_of_app. right. by apply list_elem_of_singleton.
  - intros [= <-]. simpl. rewrite Ho, Hh. by intros [= <-].
Qed.

Lemma on_readyToUseChanged_no_duplicate w w1 :
  NoDup (connections w) → on_readyToUseChanged w = Some (tt, w1) →
  NoDup (connections w1).
Proof.
  rewrite on_readyToUseChanged_unfold. intros Hnd.
  destruct (m_objectNode (self w)) as [o|]; [|done].
  destruct (node o) as [h|]; intros [= <-]; simpl; [|done].
  case_decide as Hin; [done|].
  apply NoDup_app. split; [done|]. split; [|apply NoDup_singleton].
  intros c Hc ->%list_elem_of_singleton. done.
Qed.

Lemma setObjectNodeId_unfold new w :
  setObjectNodeId new w =
    Some (tt, MkWorld
                (set_objectNode (Some (Node (allocated w) (Some new) None))
                   (set_objectNodeId (Some new) (self w)))
                ((match m_objectNodeId (self w) with
                  | Some id =>
                      filter (λ c, ¬ (sender c = This ∧ receiver c = NodeIdObject id))
                        (connections w)
                  | None => connections w
                  end
                  ++ [Connect (NodeIdObject new) nodeChanged This
                        slot_handleObjectNodeIdChanged])
                 ++ [Connect (ResolutionObject (allocated w)) readyToUseChanged
                       This slot_readyToUse])
                (S (allocated w))
                (events w ++
                 [deleteLater_event (m_objectNode (self w));
                  Emitted objectNodeIdChanged None
                    (m_resultStatusCode (self w), m_outputArguments (self w))])).
Proof.
  unfold setObjectNodeId, disconnect, connect. run.
  destruct (m_objectNodeId (self w)); run;
    by rewrite handleObjectNodeIdChanged_unfold.
Qed.


(** Once an object is destroyed, a signal of it runs no slot. *)
Lemma destroyed_is_silent o sig args w w' :
  destroyed o w = Some (tt, w') → deliver o sig args w' = Some (tt, w').
Proof.
  intros [= <-]. unfold deliver. simpl.
  assert (∀ cs, filter (λ c, sender c = o ∧ signal c = sig ∧ receiver c = This)
                  (filter (λ c, ¬ (sender c = o ∨ receiver c = o)) cs) = []) as ->; [|done].
  induction cs as [|c cs IH]; [done|].
  rewrite (filter_cons (λ c, ¬ _)). case_decide as Hc; [|done].
  rewrite filter_cons, IH. rewrite decide_False; [done|].
  intros [Hs _]. apply Hc. by left.
Qed.

(** The resolution started in [replaced] finishes, and its readiness is
    notified twice: the completion signal of the handle is connected to the
    method node once. *)
Lemma repeated_readiness_subscribes_once :
  let h := Handle 9 "ns=2;s=Example.Object" (VNodeClass QOpcUa.Object) in
  ∃ w, (resolved 1 h;; resolved 1 h) replaced = Some (tt, w) ∧
       objectNode_handle w = Some h ∧
       filter (λ c, c = completion_connection h) (connections w)
       = [completion_connection h].
Proof. eexists. split; [by vm_compute|]. by vm_compute. Qed.

(** C9 fails on the code.  In [pending], [setObjectNodeId] of a second
    identity object starts a resolution bound to it, yet the connection of
    the first identity object to [handleObjectNodeIdChanged] is still
    there; a later [nodeChanged] of the first identity object runs the
    slot, which throws the new resolution away and starts another. *)
Theorem replaced_identity_still_triggers_resolution :
  setObjectNodeId 2 pending = Some (tt, replaced) ∧
  m_objectNodeId (self replaced) = Some 2%nat ∧
  m_objectNode (self replaced) = Some (Node 1 (Some 2%nat) None) ∧
  Connect (NodeIdObject 1) nodeChanged This slot_handleObjectNodeIdChanged
    ∈ connections replaced ∧
  ∃ w, deliver (NodeIdObject 1) nodeChanged NoArguments replaced = Some (tt, w) ∧
       m_objectNode (self w) = Some (Node 2 (Some 2%nat) None) ∧
       events w = events replaced ++
                  [DeleteLater (ResolutionObject 1);
                   Emitted objectNodeIdChanged None (QOpcUa.Good, [])].
Proof.
  split; [by vm_compute|]. split; [done|]. split; [done|].
  split; [apply list_elem_of_here|].
  eexists. split; [by vm_compute|]. by split.
Qed.

(** *** Further properties of the method node *)

Lemma argument_unfold i w :
  fst <$> argument i w =
    if decide (0 ≤ i < Z.of_nat (length (arguments_of w)))
    then arguments_of w !! Z.to_nat i else None.
Proof.
  unfold argument, arguments_of. run. case_decide; [|done].
  by destruct (m_inputArguments (self w) !! Z.to_nat i).
Qed.

(** X10.  The list of input arguments: [argumentCount] is the length of
    the list; [argument(i)] is defined exactly for [0 <= i < count];
    [appendArgument] raises the count by one, puts the argument at the last
    index and leaves the earlier ones in place; [clearArguments] leaves
    count 0 and no defined index.  None of them emits or calls anything. *)
Theorem inputArguments_list_operations (w : World) (p : OpcUaMethodArgument) :
  let n := Z.of_nat (length (arguments_of w)) in
  fst <$> argumentCount w = Some n ∧
  (∀ i, is_Some (argument i w) ↔ 0 ≤ i < n) ∧
  (∃ w', appendArgument p w = Some (tt, w') ∧
         fst <$> argumentCount w' = Some (n + 1) ∧
         fst <$> argument n w' = Some p ∧
         (∀ i, 0 ≤ i < n → fst <$> argument i w' = fst <$> argument i w) ∧
         events w' = events w ∧
         m_outputArguments (self w') = m_outputArguments (self w)) ∧
  (∃ w', clearArguments w = Some (tt, w') ∧
         fst <$> argumentCount w' = Some 0 ∧
         (∀ i, argument i w' = None) ∧
         events w' = events w).
Proof.
  intros n. subst n. split; [done|]. split; [|split].
  - intros i. rewrite <- (fmap_is_Some fst), argument_unfold.
    unfold arguments_of. case_decide as Hi.
    + split; [done|]. intros _. apply lookup_lt_is_Some. lia.
    + split; [by intros [? ?]|done].
  - eexists. split; [done|]. unfold argumentCount, arguments_of. run.
    rewrite length_app. simpl. split; [f_equal; lia|].
    rewrite !argument_unfold. unfold arguments_of. simpl. rewrite length_app. simpl.
    split.
    + rewrite decide_True by lia.
      rewrite Nat2Z.id. by rewrite list_lookup_middle.
    + split; [|done]. intros i Hi. rewrite !argument_unfold. unfold arguments_of. simpl.
      rewrite length_app. simpl.
      rewrite !decide_True by lia. apply lookup_app_l. lia.
  - eexists. split; [done|]. split; [done|]. split; [|done].
    intros i. unfold argument. run. by case_decide; [lia|].
Qed.

Lemma bind_run_w {A B} (c : W A) (k : A → W B) w a w' :
  c w = Some (a, w') → (c ≫= k) w = k a w'.
Proof. intros H. unfold mbind, W_bind. by rewrite H. Qed.

Lemma appendArguments_spec items w :
  appendArguments items w =
    Some (tt, MkWorld (set_inputArguments (arguments_of w ++ items) (self w))
                (connections w) (allocated w) (events w)).
Proof.
  revert w. induction items as [|p items IH]; intros w; simpl.
  - unfold arguments_of. rewrite app_nil_r. by destruct w as [[] ? ? ?].
  - unfold appendArgument. run. rewrite IH. unfold arguments_of. simpl.
    by rewrite <- app_assoc.
Qed.

(** X11.  With the object node and the method node resolved, clearing the
    input arguments, appending a list of them one by one and calling
    [callMethod()] issues one remote call whose arguments are the pairs of
    value and type of the appended arguments, in the order they were
    appended. *)
Theorem appended_arguments_are_submitted (w : World) (target method : QOpcUaNode)
    (items : list OpcUaMethodArgument) :
  objectNode_handle w = Some target → m_node (self w) = Some method →
  ∃ w', (clearArguments;; appendArguments items;; callMethod) w = Some (tt, w') ∧
        events w' = events w ++
                    [RemoteCall target (nodeId method)
                       ((λ item, (value item, type item)) <$> items)] ∧
        fst <$> argumentCount w' = Some (Z.of_nat (length items)).
Proof.
  intros Hobj Hm. eexists. split.
  - rewrite (bind_run_w clearArguments _ w tt _ eq_refl).
    rewrite (bind_run_w _ _ _ _ _ (appendArguments_spec items _)).
    rewrite callMethod_unfold. unfold objectNode_handle in *. simpl.
    rewrite Hobj, Hm. reflexivity.
  - simpl. rewrite marshal_map. split; [done|].
    unfold argumentCount. run. by rewrite length_fmap || done.
Qed.


(** X13.  A method node that [checkValidity()] accepts passes the checks of
    [callMethod()]: [checkValidity()] then has changed nothing, both nodes
    are resolved with the classes it asks for, and [callMethod()] issues the
    remote call. *)
Theorem valid_node_passes_callMethod (w w' : World) :
  checkValidity w = Some (true, w') →
  w' = w ∧
  ∃ target method,
    objectNode_handle w = Some target ∧ m_node (self w) = Some method ∧
    class_of method = QOpcUa.Method ∧
    (class_of target = QOpcUa.Object ∨ class_of target = QOpcUa.ObjectType) ∧
    callMethod w' =
      Some (tt, MkWorld (self w) (connections w) (allocated w)
                  (events w ++ [RemoteCall target (nodeId method)
                                  (marshal (m_inputArguments (self w)))])).
Proof.
  rewrite checkValidity_unfold.
  destruct (m_node (self w)) as [method|] eqn:Hm; [|done].
  case_decide as Hc; [done|].
  destruct (objectNode_handle w) as [target|] eqn:Hobj; [|done].
  case_decide as Hn; [done|]. intros [= <-]. split; [done|].
  exists target, method. split; [done|]. split; [done|]. split; [done|]. split.
  - destruct (decide (class_of target = QOpcUa.Object)); [by left|].
    destruct (decide (class_of target = QOpcUa.ObjectType)); [by right|]. naive_solver.
  - by rewrite callMethod_unfold, Hobj, Hm.
Qed.

(** X14.  Two completion events in a row: the members end as after the
    second event alone, whatever the method node ids the events carry;
    nothing of the first result is left in [outputArguments], and the second
    event adds its own two notifications after those of the first. *)
Theorem last_completion_wins (w : World) (id1 id2 id : string) (r1 r2 : QVariant)
    (c1 c2 : QOpcUa.UaStatusCode) :
  ∃ w1 w2 w0,
    handleMethodCallFinished id1 r1 c1 w = Some (tt, w1) ∧
    handleMethodCallFinished id2 r2 c2 w1 = Some (tt, w2) ∧
    handleMethodCallFinished id r2 c2 w = Some (tt, w0) ∧
    self w2 = self w0 ∧
    fst <$> resultStatusCode w2 = Some c2 ∧
    fst <$> outputArguments w2 =
      Some (if canConvert_QVariantList r2 then value_QVariantList r2 else [r2]) ∧
    events w2 = events w1 ++ drop (length (events w)) (events w0).
Proof.
  rewrite !handleMethodCallFinished_unfold. do 3 eexists.
  split; [done|]. rewrite handleMethodCallFinished_unfold.
  split; [done|]. split; [done|]. simpl.
  split; [done|]. split; [done|]. split; [done|].
  by rewrite drop_app_length.
Qed.

Lemma unit_bind_ret (c : W unit) w : (c;; mret tt) w = c w.
Proof. unfold mbind, W_bind, mret, W_ret. by destruct (c w) as [[[] ?]|]. Qed.

Lemma on_readyToUseChanged_subscribed w h :
  objectNode_handle w = Some h → completion_connection h ∈ connections w →
  on_readyToUseChanged w = Some (tt, w).
Proof.
  unfold objectNode_handle. intros Hobj Hin. rewrite on_readyToUseChanged_unfold.
  destruct (m_objectNode (self w)) as [o|]; [|done]. simpl in Hobj. rewrite Hobj.
  rewrite decide_True by done. by destruct w.
Qed.

Lemma notify_ready_subscribed n w h :
  objectNode_handle w = Some h → completion_connection h ∈ connections w →
  notify_ready n w = Some (tt, w).
Proof.
  intros Hobj Hin. induction n as [|n IH]; [done|]. simpl.
  by rewrite (bind_run_w _ _ _ _ _ (on_readyToUseChanged_subscribed w h Hobj Hin)).
Qed.

Lemma deliver_unsubscribed h w :
  unsubscribed h w →
  filter (λ c, sender c = NodeHandle (handle h) ∧ signal c = methodCallFinished ∧
               receiver c = This) (connections w) = [].
Proof.
  unfold unsubscribed. induction (connections w) as [|c cs IH]; intros Hun; [done|].
  rewrite filter_cons. rewrite decide_False.
  - apply IH. intros c' Hc'. apply Hun. by right.
  - apply Hun. by left.
Qed.

(** X15.  The subscription to the completion signal: before the first
    readiness notification a [methodCallFinished] of the resolved handle runs
    no slot of the method node; after one or more notifications there is
    one connection to it, and a [methodCallFinished] runs
    [handleMethodCallFinished] once. *)
Theorem completion_is_handled_once (w : World) (h : QOpcUaNode) (n : nat)
    (id : string) (result : QVariant) (statusCode : QOpcUa.UaStatusCode) :
  objectNode_handle w = Some h → unsubscribed h w →
  deliver (NodeHandle (handle h)) methodCallFinished (CallFinished id result statusCode) w
    = Some (tt, w) ∧
  ∃ w', notify_ready (S n) w = Some (tt, w') ∧
        w' = MkWorld (self w) (connections w ++ [completion_connection h])
               (allocated w) (events w) ∧
        deliver (NodeHandle (handle h)) methodCallFinished
          (CallFinished id result statusCode) w'
        = handleMethodCallFinished id result statusCode w'.
Proof.
  intros Hobj Hun. split.
  - unfold deliver. by rewrite (deliver_unsubscribed h).
  - set (w1 := MkWorld (self w) (connections w ++ [completion_connection h])
                 (allocated w) (events w)).
    assert (on_readyToUseChanged w = Some (tt, w1)) as Hfirst.
    { rewrite on_readyToUseChanged_unfold. unfold objectNode_handle in Hobj.
      destruct (m_objectNode (self w)) as [o|]; [|done]. simpl in Hobj. rewrite Hobj.
      rewrite decide_False; [done|]. intros Hin. by apply (Hun _ Hin). }
    exists w1. split; [|split; [done|]].
    + simpl. rewrite (bind_run_w _ _ _ _ _ Hfirst).
      apply (notify_ready_subscribed n w1 h); [done|].
      subst w1. simpl. apply elem_of_app. right. by apply list_elem_of_singleton.
    + unfold deliver. subst w1. simpl. rewrite filter_app.
      rewrite (deliver_unsubscribed h) by done. simpl.
      rewrite filter_cons. rewrite decide_True by done. simpl.
      apply unit_bind_ret.
Qed.

Lemma filter_disconnect_id id (cs : list Connection) :
  (∀ c, c ∈ cs → receiver c = This) →
  filter (λ c, ¬ (sender c = This ∧ receiver c = NodeIdObject id)) cs = cs.
Proof.
  induction cs as [|c cs IH]; intros Hall; [done|].
  rewrite filter_cons. rewrite decide_True.
  - f_equal. apply IH. intros c' Hc'. apply Hall. by right.
  - intros [_ Hr]. rewrite (Hall c) in Hr by (by left). discriminate.
Qed.

(** X16.  In a connection table whose entries all end at the method node,
    [setObjectNodeId] removes nothing, on a method node with a resolution or
    without: it adds the connection of the new identity object and the one
    of the new resolution, so each call with the same identity object adds
    one more connection of it to [handleObjectNodeIdChanged]. *)
Theorem setObjectNodeId_only_adds_connections (w : World) (new : nat) :
  receivers_are_this w →
  ∃ w', setObjectNodeId new w = Some (tt, w') ∧
        connections w' =
          connections w ++
          [Connect (NodeIdObject new) nodeChanged This slot_handleObjectNodeIdChanged;
           Connect (ResolutionObject (allocated w)) readyToUseChanged This slot_readyToUse] ∧
        receivers_are_this w' ∧
        length (filter (λ c, sender c = NodeIdObject new ∧ signal c = nodeChanged)
                  (connections w'))
        = S (length (filter (λ c, sender c = NodeIdObject new ∧ signal c = nodeChanged)
                       (connections w))).
Proof.
  intros Hall. rewrite setObjectNodeId_unfold. eexists. split; [done|]. simpl.
  assert (match m_objectNodeId (self w) with
          | Some id => filter (λ c, ¬ (sender c = This ∧ receiver c = NodeIdObject id))
                         (connections w)
          | None => connections w
          end = connections w) as ->.
  { destruct (m_objectNodeId (self w)); [by apply filter_disconnect_id|done]. }
  rewrite <- app_assoc. simpl. split; [done|]. split.
  - intros c [Hc|Hc]%elem_of_app; [by apply Hall|].
    apply elem_of_cons in Hc as [->|Hc]; [done|].
    by apply list_elem_of_singleton in Hc as ->.
  - rewrite filter_app, length_app. simpl.
    rewrite filter_cons, decide_True by done.
    rewrite filter_cons, decide_False by (intros [? _]; discriminate).
    simpl. lia.
Qed.


(** [appended_arguments_are_submitted] at a concrete input. *)
Lemma appended_arguments_are_submitted_witness :
  ∃ w', (clearArguments;;
         appendArguments [Argument (VString "on") QOpcUa.String;
                          Argument (VBool true) QOpcUa.Boolean];;
         callMethod) ready = Some (tt, w') ∧
        events w' = [RemoteCall example_object "ns=2;s=Example.Method"
                       [(VString "on", QOpcUa.String); (VBool true, QOpcUa.Boolean)]].
Proof.
  destruct (appended_arguments_are_submitted ready example_object example_method
              [Argument (VString "on") QOpcUa.String; Argument (VBool true) QOpcUa.Boolean]
              eq_refl eq_refl) as (w' & Hrun & Hev & _).
  by exists w'.
Defined.


(** [valid_node_passes_callMethod] at a concrete input. *)
Lemma valid_node_passes_callMethod_witness :
  ∃ w', callMethod ready = Some (tt, w') ∧
        events w' = [RemoteCall example_object "ns=2;s=Example.Method"
                       [(VInt 3, QOpcUa.Double); (VInt 4, QOpcUa.Double)]].
Proof.
  destruct (valid_node_passes_callMethod ready ready eq_refl)
    as (_ & target & method & Hobj & Hm & _ & _ & Hrun).
  injection Hobj as <-. injection Hm as <-. eexists. split; [exact Hrun|]. reflexivity.
Defined.

(** [completion_is_handled_once] at a concrete input. *)
Lemma completion_is_handled_once_witness :
  ∃ w', notify_ready 3 ready = Some (tt, w') ∧
        connections w' = [completion_connection example_object] ∧
        deliver (NodeHandle 9) methodCallFinished
          (CallFinished "ns=2;s=Example.Method" (VInt 7) QOpcUa.Good) w'
        = handleMethodCallFinished "ns=2;s=Example.Method" (VInt 7) QOpcUa.Good w'.
Proof.
  destruct (completion_is_handled_once ready example_object 2 "ns=2;s=Example.Method"
              (VInt 7) QOpcUa.Good eq_refl)
    as (_ & w' & Hrun & -> & Hdel).
  - intros c Hc. by apply elem_of_nil in Hc.
  - eexists. split; [exact Hrun|]. split; [reflexivity | exact Hdel].
Defined.

(** [setObjectNodeId_only_adds_connections] at a concrete input. *)
Lemma setObjectNodeId_only_adds_connections_witness :
  ∃ w', setObjectNodeId 1 pending = Some (tt, w') ∧
        length (filter (λ c, sender c = NodeIdObject 1 ∧ signal c = nodeChanged)
                  (connections w')) = 2%nat.
Proof.
  destruct (setObjectNodeId_only_adds_connections pending 1)
    as (w' & Hrun & _ & _ & Hlen).
  - intros c Hc. simpl in Hc.
    apply elem_of_cons in Hc as [->|Hc]; [reflexivity|].
    apply list_elem_of_singleton in Hc as ->. reflexivity.
  - exists w'. split; [exact Hrun|]. rewrite Hlen. reflexivity.
Defined.

End MethodNodeSpec.
